(** * The Infinity connection-pool manager

    A shallow embedding of [common/doc_store/infinity_conn_pool.py]: the
    address parsing of [InfinityConnectionPool.__init__], its bounded
    retry loop, [get_conn_pool] and [refresh_conn_pool].

    Python strings are lists of characters (code points below 256), the
    [infinity] client library is an interface whose calls may return or
    raise, and the interpreter's side effects (logging, sleeping, calls
    into the library, attribute stores on [self]) are threaded through a
    state-and-exception monad that records them in a trace. *)

From Stdlib Require Import List Bool Arith ZArith Lia.
From Stdlib Require Import Ascii String.
Import ListNotations.

Set Implicit Arguments.

Local Open Scope list_scope.
Local Open Scope Z_scope.

(** ** Python strings *)

Module PyStr.

Definition str := list ascii.

(** A literal, written as a Rocq string. *)
Definition lit (s : string) : str := list_ascii_of_string s.

Definition code (c : ascii) : Z := Z.of_nat (nat_of_ascii c).

(** [p] is a prefix of [s]: [s.startswith(p)]. *)
Fixpoint startswith (p s : str) : bool :=
  match p, s with
  | [], _ => true
  | _ :: _, [] => false
  | a :: p', b :: s' => Ascii.eqb a b && startswith p' s'
  end.

(** [p in s] on strings: [p] occurs in [s] as a substring. *)
Fixpoint contains (p s : str) : bool :=
  startswith p s ||
  match s with
  | [] => false
  | _ :: s' => contains p s'
  end.

(** [s.split(sep)] for a non-empty [sep]: the occurrences of [sep] are
    found from the left and do not overlap. [skip] counts the characters
    of the separator just matched that are still to be passed over. *)
Fixpoint split_go (sep : str) (skip : nat) (s : str) : list str :=
  match s with
  | [] => [[]]
  | c :: s' =>
      match skip with
      | S k => split_go sep k s'
      | O =>
          if startswith sep s
          then [] :: split_go sep (Nat.pred (List.length sep)) s'
          else match split_go sep 0 s' with
               | [] => [[c]]
               | piece :: pieces => (c :: piece) :: pieces
               end
      end
  end.

Definition split (sep s : str) : list str := split_go sep 0 s.

(** [s.rstrip(ch)] for a one-character argument. *)
Fixpoint rstrip (ch : ascii) (s : str) : str :=
  match s with
  | [] => []
  | c :: s' =>
      match rstrip ch s' with
      | [] => if Ascii.eqb c ch then [] else [c]
      | r => c :: r
      end
  end.

(** The white space [int] skips around a literal, for code points
    below 256: tab, line feed, vertical tab, form feed, carriage return
    and space, and the two spaces beyond ASCII (NEL and the no-break
    space). The separators 28 to 31, which [str.strip] removes, are not
    skipped by [int]. *)
Definition int_space (c : ascii) : bool :=
  let n := code c in
  ((9 <=? n) && (n <=? 13)) || (n =? 32) || (n =? 133) || (n =? 160).

Definition isdigit (c : ascii) : bool :=
  let n := code c in (48 <=? n) && (n <=? 57).

Fixpoint lstrip_space (s : str) : str :=
  match s with
  | [] => []
  | c :: s' => if int_space c then lstrip_space s' else s
  end.

Definition strip (s : str) : str :=
  rev (lstrip_space (rev (lstrip_space s))).

(** The digits of an integer literal: single underscores are allowed
    between digits, [seen] tells whether the previous character was a
    digit. *)
Fixpoint int_digits (acc : Z) (seen : bool) (s : str) : option Z :=
  match s with
  | [] => if seen then Some acc else None
  | c :: s' =>
      if isdigit c then int_digits (10 * acc + (code c - 48)) true s'
      else if Ascii.eqb c "_"%char && seen then int_digits acc false s'
      else None
  end.

(** [sys.int_info.default_max_str_digits]: the most digits [int]
    converts; a longer literal raises [ValueError]. *)
Definition int_max_str_digits : nat := 4300.

(** The digits the limit counts: underscores are left out, leading
    zeros are not. *)
Definition count_digits (s : str) : nat := List.length (filter isdigit s).

(** The literal once the sign is taken off. *)
Definition int_literal (d : str) : option Z :=
  if (int_max_str_digits <? count_digits d)%nat then None
  else int_digits 0 false d.

(** [int(s)] in base ten; [None] stands for [ValueError]. *)
Definition int_of_str (s : str) : option Z :=
  match strip s with
  | c :: d =>
      if Ascii.eqb c "-"%char then option_map Z.opp (int_literal d)
      else if Ascii.eqb c "+"%char then int_literal d
      else int_literal (c :: d)
  | [] => None
  end.

(** The value of a string of decimal digits. *)
Definition decimal (s : str) : Z :=
  fold_left (fun a c => 10 * a + (code c - 48)) s 0.

End PyStr.
Import PyStr.

(** ** Values, exceptions and the trace of effects *)

(** [infinity.common.NetworkAddress(ip, port)]: a plain pair. *)
Record NetworkAddress := { ip : str; port : Z }.

(** Object identities of pools and connections. *)
Definition handle := nat.
Definition conn := nat.

(** The exceptions the code can meet; all of them derive from
    [Exception], so [except Exception] catches every one. *)
Inductive exn :=
| ValueError (literal : str)             (* int() on a bad literal *)
| IndexError                             (* list index out of range *)
| AttributeError (owner attr : string)   (* missing attribute *)
| ProbeRejected (error_code : Z) (server_status : str)
    (* Exception(f"{res.error_code}: {res.server_status}") *)
| Unhealthy (uri : str)
    (* Exception(f"Infinity {infinity_uri} is unhealthy in 120s.") *)
| LibraryError (what : string).          (* raised inside infinity *)

Inductive level := INFO | WARNING | ERROR.

(** The message of a log record, by the format string it comes from. *)
Inductive message :=
| UnexpectedFormat (uri : str)
    (* "Unexpected Infinity URI format: {uri}. Trying to parse anyway." *)
| ParseFailed (uri : str) (e : exn)
    (* "Failed to parse Infinity URI '{uri}': {e}. Using default ..." *)
| Waiting (e : exn) (uri : str)
    (* "{e}. Waiting Infinity {uri} to be healthy." *)
| IsUnhealthy (uri : str)
    (* "Infinity {uri} is unhealthy in 120s." *)
| IsHealthy (uri : str)
    (* "Infinity {uri} is healthy." *)
| Str (e : exn).
    (* str(e) *)

Inductive event :=
| Log (lvl : level) (msg : message)
| Sleep (seconds : nat)
| PoolNew (addr : NetworkAddress) (max_size : nat) (h : handle)
| GetConn (h : handle)
| ShowCurrentNode (c : conn)
| ReleaseConn (h : handle) (c : conn)
| Destroy (h : handle).

(** ** A state-and-exception monad *)

Inductive outcome (A : Type) :=
| Return (a : A)
| Raise (e : exn).
Arguments Return {A} a.
Arguments Raise {A} e.

Section Monad.
Variable S : Type.

Definition M (A : Type) := S -> outcome A * S.

Definition ret {A} (a : A) : M A := fun s => (Return a, s).

Definition raise {A} (e : exn) : M A := fun s => (Raise e, s).

Definition bind {A B} (m : M A) (k : A -> M B) : M B :=
  fun s =>
    match m s with
    | (Return a, s') => k a s'
    | (Raise e, s') => (Raise e, s')
    end.

(** [try: m except Exception as e: h e]; the state reached when the
    exception was raised is kept. *)
Definition try_except {A} (m : M A) (h : exn -> M A) : M A :=
  fun s =>
    match m s with
    | (Return a, s') => (Return a, s')
    | (Raise e, s') => h e s'
    end.

Definition gets {A} (f : S -> A) : M A := fun s => (Return (f s), s).

Definition modify (f : S -> S) : M unit := fun s => (Return tt, f s).
End Monad.

Arguments ret {S A} a.
Arguments raise {S A} e.
Arguments bind {S A B} m k.
Arguments try_except {S A} m h.
Arguments gets {S A} f.
Arguments modify {S} f.

Declare Scope monad_scope.
Delimit Scope monad_scope with monad.
Notation "x <- m ;; k" := (bind m (fun x => k))
  (at level 61, m at next level, right associativity) : monad_scope.
Notation "m ;; k" := (bind m (fun _ => k))
  (at level 61, right associativity) : monad_scope.
Local Open Scope monad_scope.

(** ** Address parsing (lines 38-68 of the source)

    Parsing logs and may raise, and touches nothing else: it runs over
    the trace alone. *)

Module Parse.

Definition P := M (list event).

Definition emit (e : event) : P unit := modify (fun t => t ++ [e]).

Definition default_host : str := lit "127.0.0.1".
Definition default_port : Z := 23817.
Definition default_address : NetworkAddress :=
  {| ip := default_host; port := default_port |}.

Definition scheme_sep : str := lit "://".
Definition colon : str := lit ":".

(** [int(s)] *)
Definition py_int (s : str) : P Z :=
  match int_of_str s with
  | Some n => ret n
  | None => raise (ValueError s)
  end.

(** Lines 44-46: strip the protocol if present. *)
Definition strip_scheme (uri : str) : str :=
  if contains scheme_sep uri
  then last (split scheme_sep uri) []
  else uri.

(** Lines 44-49: [clean_uri] as it stands before the colon test. *)
Definition clean (uri : str) : str := rstrip "/" (strip_scheme uri).

(** [parts[-1]] and [parts[-2]]. *)
Definition index_m1 (parts : list str) : P str :=
  match rev parts with
  | x :: _ => ret x
  | [] => raise IndexError
  end.

Definition index_m2 (parts : list str) : P str :=
  match rev parts with
  | _ :: x :: _ => ret x
  | _ => raise IndexError
  end.

(** The body of the [try] block, lines 43-65. *)
Definition parse_body (infinity_uri : str) : P NetworkAddress :=
  let host := default_host in
  let port := default_port in
  let clean_uri := clean infinity_uri in
  if contains colon clean_uri then
    let parts := split colon clean_uri in
    match parts with
    | [host; port_str] =>
        port <- py_int port_str ;;
        ret {| ip := host; port := port |}
    | _ =>
        emit (Log WARNING (UnexpectedFormat infinity_uri)) ;;
        last_part <- index_m1 parts ;;
        port <- py_int last_part ;;
        host <- index_m2 parts ;;
        ret {| ip := host; port := port |}
    end
  else
    let host := clean_uri in
    ret {| ip := host; port := port |}.

(** Lines 42-68: the [try] block with its handler. *)
Definition parse_address (infinity_uri : str) : P NetworkAddress :=
  try_except (parse_body infinity_uri)
    (fun e =>
       emit (Log ERROR (ParseFailed infinity_uri e)) ;;
       ret default_address).

(** The address and the log records of a parse started on an empty
    trace. *)
Definition resolve (infinity_uri : str) : outcome NetworkAddress * list event :=
  parse_address infinity_uri [].

(** The specification's reading of scheme stripping: split at the first
    occurrence of the separator and keep the remainder. *)
Fixpoint after_first (sep s : str) : str :=
  match s with
  | [] => []
  | _ :: s' =>
      if startswith sep s then skipn (List.length sep) s
      else after_first sep s'
  end.

(** A URI [scheme://host:port] with its optional parts. *)
Definition address_uri (scheme : option str) (host port slashes : str) : str :=
  match scheme with
  | Some sc => sc ++ scheme_sep ++ host ++ colon ++ port ++ slashes
  | None => host ++ colon ++ port ++ slashes
  end.

(** The number of colons of a string. *)
Definition colons (s : str) : nat := count_occ ascii_dec s ":"%char.

End Parse.

(** ** The [infinity] client library

    The pool and its connections live in the library; the manager only
    calls them. A call changes the library's own state (the [World]) and
    returns or raises. *)

Record Library := {
  World : Type;
  (** [ConnectionPool.__init__(addr, max_size)] on the new object [h] *)
  lib_pool_init : NetworkAddress -> nat -> handle -> World -> outcome unit * World;
  (** [pool.get_conn()] *)
  lib_get_conn : handle -> World -> outcome conn * World;
  (** [conn.show_current_node()]: [(res.error_code, res.server_status)] *)
  lib_show_current_node : conn -> World -> outcome (Z * str) * World;
  (** [pool.release_conn(conn)] *)
  lib_release_conn : handle -> conn -> World -> outcome unit * World;
  (** [pool.destroy()] *)
  lib_destroy : handle -> World -> outcome unit * World
}.

(** [ErrorCode.OK] *)
Definition ErrorCode_OK : Z := 0.

Definition str_eqb (a b : str) : bool :=
  if list_eq_dec ascii_dec a b then true else false.

(** [res.error_code == ErrorCode.OK and
     res.server_status in ["started", "alive"]] *)
Definition healthy (res : Z * str) : bool :=
  (fst res =? ErrorCode_OK) &&
  existsb (str_eqb (snd res)) [lit "started"; lit "alive"].
Arguments healthy : simpl never.

(** What an attribute or a return value can hold. *)
Inductive pyval :=
| VNone
| VPool (h : handle).

(** [bool(v)]: a pool object defines neither [__bool__] nor [__len__]. *)
Definition truthy (v : pyval) : bool :=
  match v with
  | VNone => false
  | VPool _ => true
  end.

(** ** Reading a trace *)

Definition is_sleep (e : event) : bool :=
  match e with Sleep _ => true | _ => false end.

Definition is_log (l : level) (e : event) : bool :=
  match e, l with
  | Log INFO _, INFO | Log WARNING _, WARNING | Log ERROR _, ERROR => true
  | _, _ => false
  end.

Definition is_destroy (h : handle) (e : event) : bool :=
  match e with Destroy h' => Nat.eqb h h' | _ => false end.

Definition is_pool_new (e : event) : bool :=
  match e with PoolNew _ _ _ => true | _ => false end.

Definition count (p : event -> bool) (t : list event) : nat :=
  List.length (filter p t).

Module InfinityConnectionPool.
Section Manager.
Variable L : Library.

(** The interpreter state the methods run in: the library's world, the
    trace of effects, the next fresh object identity, and the two
    attributes of [self] ([None] when the attribute is not set). *)
Record state := {
  world : World L;
  trace : list event;
  next_obj : nat;
  self_infinity_uri : option NetworkAddress;
  self_conn_pool : option pyval
}.

Definition T := M state.

Definition emit (e : event) : T unit :=
  modify (fun s => {| world := world s; trace := trace s ++ [e];
                      next_obj := next_obj s;
                      self_infinity_uri := self_infinity_uri s;
                      self_conn_pool := self_conn_pool s |}).

(** Run a parse over the trace of the state. *)
Definition lift_parse {A} (p : Parse.P A) : T A :=
  fun s =>
    let (r, t) := p (trace s) in
    (r, {| world := world s; trace := t; next_obj := next_obj s;
           self_infinity_uri := self_infinity_uri s;
           self_conn_pool := self_conn_pool s |}).

(** A call into the library. *)
Definition call {A} (f : World L -> outcome A * World L) : T A :=
  fun s =>
    let (r, w) := f (world s) in
    (r, {| world := w; trace := trace s; next_obj := next_obj s;
           self_infinity_uri := self_infinity_uri s;
           self_conn_pool := self_conn_pool s |}).

Definition fresh : T handle :=
  fun s =>
    (Return (next_obj s),
     {| world := world s; trace := trace s; next_obj := Datatypes.S (next_obj s);
        self_infinity_uri := self_infinity_uri s;
        self_conn_pool := self_conn_pool s |}).

(** [self.infinity_uri = a] and [self.conn_pool = v] *)
Definition set_infinity_uri (a : NetworkAddress) : T unit :=
  modify (fun s => {| world := world s; trace := trace s;
                      next_obj := next_obj s;
                      self_infinity_uri := Some a;
                      self_conn_pool := self_conn_pool s |}).

Definition set_conn_pool (v : pyval) : T unit :=
  modify (fun s => {| world := world s; trace := trace s;
                      next_obj := next_obj s;
                      self_infinity_uri := self_infinity_uri s;
                      self_conn_pool := Some v |}).

(** [self.infinity_uri] and [self.conn_pool] *)
Definition get_infinity_uri : T NetworkAddress :=
  a <- gets self_infinity_uri ;;
  match a with
  | Some a => ret a
  | None => raise (AttributeError "InfinityConnectionPool" "infinity_uri")
  end.

Definition get_conn_pool_attr : T pyval :=
  v <- gets self_conn_pool ;;
  match v with
  | Some v => ret v
  | None => raise (AttributeError "InfinityConnectionPool" "conn_pool")
  end.

(** [hasattr(self, "conn_pool")] *)
Definition hasattr_conn_pool : T bool :=
  v <- gets self_conn_pool ;;
  ret (match v with Some _ => true | None => false end).

(** [ConnectionPool(addr, max_size=n)]: a new object, then its
    initialiser. *)
Definition ConnectionPool (addr : NetworkAddress) (max_size : nat) : T handle :=
  h <- fresh ;;
  emit (PoolNew addr max_size h) ;;
  call (lib_pool_init L addr max_size h) ;;
  ret h.

(** [v.get_conn()], [v.destroy()] on whatever [v] is. *)
Definition get_conn (v : pyval) : T conn :=
  match v with
  | VPool h => emit (GetConn h) ;; call (lib_get_conn L h)
  | VNone => raise (AttributeError "NoneType" "get_conn")
  end.

Definition destroy (v : pyval) : T unit :=
  match v with
  | VPool h => emit (Destroy h) ;; call (lib_destroy L h)
  | VNone => raise (AttributeError "NoneType" "destroy")
  end.

Definition show_current_node (c : conn) : T (Z * str) :=
  emit (ShowCurrentNode c) ;; call (lib_show_current_node L c).

Definition release_conn (h : handle) (c : conn) : T unit :=
  emit (ReleaseConn h c) ;; call (lib_release_conn L h c).

(** [time.sleep(n)] *)
Definition sleep (n : nat) : T unit := emit (Sleep n).

(** The body of the [try] in the retry loop, lines 72-78; [true] when
    the round ended in [break]. *)
Definition round_body : T bool :=
  addr <- get_infinity_uri ;;
  conn_pool <- ConnectionPool addr 4 ;;
  inf_conn <- get_conn (VPool conn_pool) ;;
  res <- show_current_node inf_conn ;;
  if healthy res then
    set_conn_pool (VPool conn_pool) ;;
    release_conn conn_pool inf_conn ;;
    ret true
  else ret false.

(** One round with its handler, lines 71-81. *)
Definition round (infinity_uri : str) : T bool :=
  try_except round_body
    (fun e =>
       emit (Log WARNING (Waiting e infinity_uri)) ;;
       sleep 5 ;;
       ret false).

(** [for _ in range(n)], lines 70-81. *)
Fixpoint retry (n : nat) (infinity_uri : str) : T unit :=
  match n with
  | O => ret tt
  | Datatypes.S k =>
      broke <- round infinity_uri ;;
      if broke then ret tt else retry k infinity_uri
  end.

(** Lines 83-88. *)
Definition check_healthy (infinity_uri : str) : T unit :=
  v <- get_conn_pool_attr ;;
  match v with
  | VNone =>
      emit (Log ERROR (IsUnhealthy infinity_uri)) ;;
      raise (Unhealthy infinity_uri)
  | VPool _ => emit (Log INFO (IsHealthy infinity_uri))
  end.

(** [__init__], from the configured [uri] on (lines 36-88). *)
Definition __init__ (infinity_uri : str) : T unit :=
  addr <- lift_parse (Parse.parse_address infinity_uri) ;;
  set_infinity_uri addr ;;
  retry 24 infinity_uri ;;
  check_healthy infinity_uri.

Definition get_conn_pool : T pyval := get_conn_pool_attr.

(** The body of the [try] of [refresh_conn_pool], lines 95-100. *)
Definition probe : T pyval :=
  pool <- get_conn_pool_attr ;;
  inf_conn <- get_conn pool ;;
  res <- show_current_node inf_conn ;;
  if healthy res then get_conn_pool_attr
  else raise (ProbeRejected (fst res) (snd res)).

(** Its handler, lines 103-107; without a truthy [conn_pool] the
    method falls off its end and returns [None]. *)
Definition rebuild (e : exn) : T pyval :=
  emit (Log ERROR (Str e)) ;;
  has <- hasattr_conn_pool ;;
  if has then
    old <- get_conn_pool_attr ;;
    if truthy old then
      destroy old ;;
      addr <- get_infinity_uri ;;
      new <- ConnectionPool addr 32 ;;
      set_conn_pool (VPool new) ;;
      get_conn_pool_attr
    else ret VNone
  else ret VNone.

Definition refresh_conn_pool : T pyval := try_except probe rebuild.

(** [__del__], lines 109-111. *)
Definition __del__ : T unit :=
  has <- hasattr_conn_pool ;;
  if has then
    old <- get_conn_pool_attr ;;
    if truthy old then destroy old else ret tt
  else ret tt.

(** The state a new object starts in: nothing logged yet, no
    attribute set. *)
Definition new_object (w : World L) : state :=
  {| world := w; trace := []; next_obj := 0%nat;
     self_infinity_uri := None; self_conn_pool := None |}.

(** The state with another world and a longer trace. *)
Definition advance (s : state) (w : World L) (evs : list event) : state :=
  {| world := w; trace := trace s ++ evs; next_obj := next_obj s;
     self_infinity_uri := self_infinity_uri s;
     self_conn_pool := self_conn_pool s |}.

(** The health probe on pool [h] fails: borrowing the connection
    raises, the probe itself raises, or it answers with a bad status
    or state. [e] is the exception the [try] block ends with, [w] the
    world it leaves and [evs] the calls it made. *)
Inductive probe_fails (s : state) (h : handle)
  : exn -> World L -> list event -> Prop :=
| get_conn_raises e w :
    lib_get_conn L h (world s) = (Raise e, w) ->
    probe_fails s h e w [GetConn h]
| show_raises c w1 e w :
    lib_get_conn L h (world s) = (Return c, w1) ->
    lib_show_current_node L c w1 = (Raise e, w) ->
    probe_fails s h e w [GetConn h; ShowCurrentNode c]
| bad_status c w1 res w :
    lib_get_conn L h (world s) = (Return c, w1) ->
    lib_show_current_node L c w1 = (Return res, w) ->
    healthy res = false ->
    probe_fails s h (ProbeRejected (fst res) (snd res)) w
      [GetConn h; ShowCurrentNode c].

(** The probe succeeds: OK status and a live server state. *)
Inductive probe_succeeds (s : state) (h : handle)
  : World L -> list event -> Prop :=
| good_status c w1 status w :
    lib_get_conn L h (world s) = (Return c, w1) ->
    lib_show_current_node L c w1 = (Return (ErrorCode_OK, status), w) ->
    status = lit "started" \/ status = lit "alive" ->
    probe_succeeds s h w [GetConn h; ShowCurrentNode c].

(** What the claim C4 promises of a call: a pool is returned, it is
    not the prior one, and the prior one was destroyed exactly once
    by the call. *)
Definition rebuilt (s : state) (h : handle) : Prop :=
  exists h' s' evs,
    refresh_conn_pool s = (Return (VPool h'), s') /\ h' <> h /\
    trace s' = trace s ++ evs /\ count (is_destroy h) evs = 1%nat.

(** The exception the probe ends with when no pool is stored. *)
Definition missing_pool (v : option pyval) : exn :=
  match v with
  | None => AttributeError "InfinityConnectionPool" "conn_pool"
  | Some _ => AttributeError "NoneType" "get_conn"
  end.

(** Every stored pool is an object that was allocated. *)
Definition wf (s : state) : Prop :=
  forall h, self_conn_pool s = Some (VPool h) -> (h < next_obj s)%nat.

(** What a piece of the construction may do to the state: allocate
    objects, append events none of which is an error record, keep the
    address, and leave the stored handle alone or store a pool. *)
Record extends (s s' : state) : Prop := {
  ext_next : (next_obj s <= next_obj s')%nat;
  ext_addr : self_infinity_uri s' = self_infinity_uri s;
  ext_trace : exists evs,
      trace s' = trace s ++ evs /\ count (is_log ERROR) evs = 0%nat;
  ext_wf : wf s -> wf s';
  ext_pool : self_conn_pool s' = self_conn_pool s \/
             exists h, self_conn_pool s' = Some (VPool h)
}.

(** The probe never reports a healthy server. *)
Definition never_healthy : Prop :=
  forall c w res w',
    lib_show_current_node L c w = (Return res, w') -> healthy res = false.

(** The state in which the retry loop starts. *)
Definition parsed (s : state) (t : list event) (addr : NetworkAddress)
  : state :=
  {| world := world s; trace := t; next_obj := next_obj s;
     self_infinity_uri := Some addr; self_conn_pool := self_conn_pool s |}.

End Manager.
End InfinityConnectionPool.

(** ** A scripted server

    A library instance for concrete runs: the answers of the successive
    health probes are given by a list, and two switches make the pool
    constructor and [destroy] raise, as they do when the server is
    away. *)

Module Scripted.

Inductive reply :=
| Throws                                  (* the probe raises *)
| Replies (error_code : Z) (server_status : str).

Record server := {
  replies : list reply;
  refuses_new_pools : bool;
  refuses_destroy : bool
}.

Definition consume (w : server) : server :=
  {| replies := tl (replies w);
     refuses_new_pools := refuses_new_pools w;
     refuses_destroy := refuses_destroy w |}.

Definition pool_init (_ : NetworkAddress) (_ : nat) (_ : handle) (w : server)
  : outcome unit * server :=
  if refuses_new_pools w then (Raise (LibraryError "connection refused"), w)
  else (Return tt, w).

(** The connection borrowed from pool [h] is numbered after it. *)
Definition get_conn (h : handle) (w : server) : outcome conn * server :=
  (Return h, w).

Definition show_current_node (_ : conn) (w : server)
  : outcome (Z * str) * server :=
  match replies w with
  | Replies c s :: _ => (Return (c, s), consume w)
  | Throws :: _ => (Raise (LibraryError "no answer"), consume w)
  | [] => (Raise (LibraryError "no answer"), w)
  end.

Definition release_conn (_ : handle) (_ : conn) (w : server)
  : outcome unit * server := (Return tt, w).

Definition destroy (_ : handle) (w : server) : outcome unit * server :=
  if refuses_destroy w then (Raise (LibraryError "destroy failed"), w)
  else (Return tt, w).

Definition library : Library :=
  {| World := server;
     lib_pool_init := pool_init;
     lib_get_conn := get_conn;
     lib_show_current_node := show_current_node;
     lib_release_conn := release_conn;
     lib_destroy := destroy |}.

Definition up (rs : list reply) : server :=
  {| replies := rs; refuses_new_pools := false; refuses_destroy := false |}.

Definition ok : reply := Replies ErrorCode_OK (lit "started").
Definition starting : reply := Replies ErrorCode_OK (lit "starting").

End Scripted.

(** ** Scenarios against the scripted server *)

Module Scenario.
Import InfinityConnectionPool.

Local Open Scope nat_scope.

Definition state := InfinityConnectionPool.state Scripted.library.

Definition configured_uri : str := lit "infinity:23817".

Definition configured_address : NetworkAddress :=
  {| ip := lit "infinity"; port := 23817%Z |}.

(** Construction against a server that gives the replies [rs]. *)
Definition construct (rs : list Scripted.reply) : outcome unit * state :=
  __init__ configured_uri (new_object Scripted.library (Scripted.up rs)).

(** The manager built against a server that is healthy at the first
    probe and has [rs] left to answer later. *)
Definition manager (rs : list Scripted.reply) : state :=
  snd (construct (Scripted.ok :: rs)).

(** The same manager once the server is away: probes get no answer and
    new pools are refused. *)
Definition away : World Scripted.library :=
  {| Scripted.replies := [];
     Scripted.refuses_new_pools := true;
     Scripted.refuses_destroy := false |}.

Definition server_away (s : state) : state :=
  {| world := away;
     trace := trace s; next_obj := next_obj s;
     self_infinity_uri := self_infinity_uri s;
     self_conn_pool := self_conn_pool s |}.

End Scenario.

(** ** Further readings of a trace and further servers *)

Definition is_release (e : event) : bool :=
  match e with ReleaseConn _ _ => true | _ => false end.

Definition is_any_destroy (e : event) : bool :=
  match e with Destroy _ => true | _ => false end.

(** What the construction may record once the address is parsed: pools
    are built at [addr] with [max_size=4], sleeps last five seconds, and
    there is neither a [destroy] nor an error record. *)
Definition construction_event (addr : NetworkAddress) (e : event) : Prop :=
  match e with
  | PoolNew a n _ => a = addr /\ n = 4%nat
  | Sleep n => n = 5%nat
  | Destroy _ => False
  | Log ERROR _ => False
  | _ => True
  end.

(** The seconds a trace spent in [time.sleep]. *)
Definition seconds_slept (t : list event) : nat :=
  fold_right (fun e acc => match e with Sleep n => (n + acc)%nat | _ => acc end)
    0%nat t.

Module Stubs.

(** A server that is up but never ready: every call returns, and the
    probe always answers OK with the state ["starting"]. *)
Definition never_ready : Library :=
  {| World := unit;
     lib_pool_init := fun _ _ _ w => (Return tt, w);
     lib_get_conn := fun h w => (Return h, w);
     lib_show_current_node :=
       fun _ w => (Return (ErrorCode_OK, lit "starting"), w);
     lib_release_conn := fun _ _ w => (Return tt, w);
     lib_destroy := fun _ w => (Return tt, w) |}.

(** A healthy server whose pools raise when a connection is given
    back. *)
Definition no_release : Library :=
  {| World := unit;
     lib_pool_init := fun _ _ _ w => (Return tt, w);
     lib_get_conn := fun h w => (Return h, w);
     lib_show_current_node :=
       fun _ w => (Return (ErrorCode_OK, lit "alive"), w);
     lib_release_conn :=
       fun _ _ w => (Raise (LibraryError "release failed"), w);
     lib_destroy := fun _ w => (Return tt, w) |}.

End Stubs.

Module MoreScenarios.
Import InfinityConnectionPool Scenario.

(** The manager once the server is away and refuses to tear pools
    down. *)
Definition no_teardown : World Scripted.library :=
  {| Scripted.replies := [];
     Scripted.refuses_new_pools := false;
     Scripted.refuses_destroy := true |}.

Definition destroy_refused (s : Scenario.state) : Scenario.state :=
  {| world := no_teardown;
     trace := trace s; next_obj := next_obj s;
     self_infinity_uri := self_infinity_uri s;
     self_conn_pool := self_conn_pool s |}.

(** A new object of library [L] with the configured address parsed and
    stored, as the retry loop finds it. *)
Definition before_loop (L : Library) (w : World L)
  : InfinityConnectionPool.state L :=
  parsed (new_object L w) [] configured_address.

End MoreScenarios.

(** * Properties *)

Unset Implicit Arguments.

(** ** Facts about the string primitives *)

Module PyStrFacts.

Lemma startswith_app (p r : str) : startswith p (p ++ r) = true.
Proof.
  induction p as [|a p IH]; simpl.
  - reflexivity.
  - now rewrite Ascii.eqb_refl, IH.
Qed.

Lemma forallb_cons_true {A} (f : A -> bool) (c : A) (s : list A) :
  forallb f (c :: s) = true -> f c = true /\ forallb f s = true.
Proof. intros H. now apply andb_true_iff in H. Qed.

Lemma contains_cons (p : str) (c : ascii) (s : str) :
  contains p (c :: s) = startswith p (c :: s) || contains p s.
Proof. reflexivity. Qed.

Lemma startswith_char (ch c : ascii) (s : str) :
  startswith [ch] (c :: s) = Ascii.eqb ch c.
Proof. simpl. apply andb_true_r. Qed.

Lemma startswith_cons (a : ascii) (p : str) (c : ascii) (s : str) :
  startswith (a :: p) (c :: s) = Ascii.eqb a c && startswith p s.
Proof. reflexivity. Qed.

Lemma contains_cons_false (p : str) (c : ascii) (s : str) :
  contains p (c :: s) = false ->
  startswith p (c :: s) = false /\ contains p s = false.
Proof.
  simpl contains. intros H. now apply orb_false_iff in H.
Qed.

Lemma contains_app (p a r : str) : contains p (a ++ p ++ r) = true.
Proof.
  induction a as [|c a IH].
  - simpl app. destruct (p ++ r) eqn:E; simpl;
      rewrite <- E, startswith_app; reflexivity.
  - change ((c :: a) ++ p ++ r) with (c :: (a ++ p ++ r)).
    simpl contains. rewrite IH. apply orb_true_r.
Qed.

Lemma contains_skipn (p : str) (n : nat) (s : str) :
  contains p s = false -> contains p (skipn n s) = false.
Proof.
  revert s. induction n as [|n IH]; intros s H.
  - exact H.
  - destruct s as [|c s]; [exact H|].
    simpl skipn. apply IH. now apply contains_cons_false in H.
Qed.

Lemma split_go_cons (sep : str) (k : nat) (c : ascii) (s : str) :
  split_go sep k (c :: s)
  = match k with
    | S k' => split_go sep k' s
    | O =>
        if startswith sep (c :: s)
        then [] :: split_go sep (Nat.pred (List.length sep)) s
        else match split_go sep 0 s with
             | [] => [[c]]
             | piece :: pieces => (c :: piece) :: pieces
             end
    end.
Proof. reflexivity. Qed.

Lemma split_go_nonempty (sep : str) (k : nat) (s : str) :
  split_go sep k s <> [].
Proof.
  revert k. induction s as [|c s IH]; intros k; simpl.
  - discriminate.
  - destruct k as [|k]; [|apply IH].
    destruct (startswith sep (c :: s)); [discriminate|].
    destruct (split_go sep 0 s); discriminate.
Qed.

(** A string without the separator is a single piece. *)
Lemma split_without_sep (sep s : str) :
  contains sep s = false -> split sep s = [s].
Proof.
  unfold split. induction s as [|c s IH]; intros H.
  - reflexivity.
  - apply contains_cons_false in H. destruct H as [H1 H2].
    simpl split_go. rewrite H1, (IH H2). reflexivity.
Qed.

(** For a one-character separator the pieces of a concatenation around
    the separator are the pieces of both sides. *)
Lemma split_char_app (ch : ascii) (a b : str) :
  split [ch] (a ++ ch :: b) = split [ch] a ++ split [ch] b.
Proof.
  unfold split. induction a as [|c a IH].
  - simpl. now rewrite Ascii.eqb_refl.
  - change ((c :: a) ++ ch :: b) with (c :: (a ++ ch :: b)).
    simpl split_go. rewrite IH. simpl startswith.
    destruct (Ascii.eqb ch c); simpl.
    + reflexivity.
    + destruct (split_go [ch] 0 a) eqn:E.
      * now apply split_go_nonempty in E.
      * reflexivity.
Qed.

Lemma rstrip_all (ch : ascii) (t : str) :
  forallb (Ascii.eqb ch) t = true -> rstrip ch t = [].
Proof.
  induction t as [|c t IH]; simpl; intros H.
  - reflexivity.
  - apply andb_true_iff in H. destruct H as [H1 H2].
    rewrite (IH H2). rewrite Ascii.eqb_sym, H1. reflexivity.
Qed.

Lemma rstrip_app_all (ch : ascii) (a t : str) :
  forallb (Ascii.eqb ch) t = true -> rstrip ch (a ++ t) = rstrip ch a.
Proof.
  intros H. induction a as [|c a IH]; simpl.
  - now apply rstrip_all.
  - now rewrite IH.
Qed.

Lemma rstrip_app_keep (ch : ascii) (a b : str) :
  rstrip ch b <> [] -> rstrip ch (a ++ b) = a ++ rstrip ch b.
Proof.
  intros H. induction a as [|c a IH]; simpl.
  - reflexivity.
  - rewrite IH. destruct (a ++ rstrip ch b) eqn:E; [|reflexivity].
    apply app_eq_nil in E. now destruct E.
Qed.

Lemma rstrip_none (ch : ascii) (s : str) :
  s <> [] -> forallb (fun c => negb (Ascii.eqb c ch)) s = true ->
  rstrip ch s = s.
Proof.
  induction s as [|c s IH]; intros Hne H; [easy|].
  simpl in H. apply andb_true_iff in H. destruct H as [H1 H2].
  simpl. destruct s as [|d s].
  - simpl. now apply negb_true_iff in H1; rewrite H1.
  - rewrite IH by easy. reflexivity.
Qed.

(** Digits are neither white space nor one of the characters the parser
    gives a meaning to. *)
Lemma isdigit_plain (c : ascii) :
  isdigit c = true ->
  int_space c = false /\ Ascii.eqb c "-" = false /\ Ascii.eqb c "+" = false
  /\ Ascii.eqb c "/" = false /\ Ascii.eqb ":" c = false
  /\ Ascii.eqb "/" c = false.
Proof.
  destruct c as [[] [] [] [] [] [] [] []]; vm_compute;
    intros H; try discriminate H; repeat split.
Qed.

Lemma int_digits_all (s : str) (acc : Z) (seen : bool) :
  forallb isdigit s = true -> (s <> [] \/ seen = true) ->
  int_digits acc seen s
  = Some (fold_left (fun a c => 10 * a + (code c - 48)) s acc).
Proof.
  revert acc seen. induction s as [|c s IH]; intros acc seen H Hs.
  - destruct Hs as [Hs|Hs]; [easy|]. now rewrite Hs.
  - simpl in H. apply andb_true_iff in H. destruct H as [H1 H2].
    simpl. rewrite H1. apply IH; auto.
Qed.

Lemma lstrip_space_digit (s : str) :
  match s with c :: _ => isdigit c = true | [] => True end ->
  lstrip_space s = s.
Proof.
  destruct s as [|c s]; [reflexivity|]. intros H.
  simpl. now destruct (isdigit_plain c H) as [-> _].
Qed.

Lemma strip_digits (s : str) : forallb isdigit s = true -> strip s = s.
Proof.
  intros H. unfold strip.
  rewrite (lstrip_space_digit s).
  - rewrite lstrip_space_digit; [apply rev_involutive|].
    destruct (rev s) as [|c r] eqn:E; [exact I|].
    rewrite forallb_forall in H. apply H. apply in_rev.
    rewrite E. now left.
  - destruct s as [|c s]; [exact I|].
    simpl in H. now apply andb_true_iff in H.
Qed.

Lemma count_digits_all (s : str) :
  forallb isdigit s = true -> count_digits s = List.length s.
Proof.
  unfold count_digits. induction s as [|c s IH]; intros H.
  - reflexivity.
  - apply forallb_cons_true in H. destruct H as [H1 H2].
    simpl. rewrite H1. simpl. now rewrite (IH H2).
Qed.

Lemma int_literal_digits (s : str) :
  s <> [] -> forallb isdigit s = true ->
  (List.length s <= int_max_str_digits)%nat ->
  int_literal s = Some (decimal s).
Proof.
  intros Hne H Hlen. unfold int_literal.
  rewrite (count_digits_all s H).
  destruct (Nat.ltb_spec int_max_str_digits (List.length s)) as [Hlt|_].
  - exfalso. apply (Nat.lt_irrefl (List.length s)).
    now apply Nat.le_lt_trans with int_max_str_digits.
  - apply int_digits_all; [exact H | now left].
Qed.

(** [int] on a non-empty string of digits within the limit is its
    decimal value. *)
Lemma int_of_digits (s : str) :
  s <> [] -> forallb isdigit s = true ->
  (List.length s <= int_max_str_digits)%nat ->
  int_of_str s = Some (decimal s).
Proof.
  intros Hne H Hlen. unfold int_of_str. rewrite (strip_digits s H).
  destruct s as [|c d]; [easy|].
  assert (Hc : isdigit c = true)
    by (simpl in H; now apply andb_true_iff in H).
  destruct (isdigit_plain c Hc) as (_ & -> & -> & _).
  now apply int_literal_digits.
Qed.

End PyStrFacts.

(** ** Address parsing *)

Module ParseFacts.
Import PyStrFacts Parse.

Local Open Scope char_scope.

Lemma scheme_sep_eq : scheme_sep = [":"; "/"; "/"].
Proof. reflexivity. Qed.

Lemma colon_eq : colon = [":"].
Proof. reflexivity. Qed.

(** No colon, no scheme separator. *)
Lemma no_colon_no_scheme (s : str) :
  contains colon s = false -> contains scheme_sep s = false.
Proof.
  rewrite scheme_sep_eq, colon_eq.
  induction s as [|c s IH]; intros H.
  - reflexivity.
  - apply contains_cons_false in H. destruct H as [H1 H2].
    rewrite startswith_char in H1.
    rewrite contains_cons, startswith_cons, H1. apply (IH H2).
Qed.

(** The pieces of [p ++ "://" ++ r] end with [r] when [r] holds no
    separator, wherever the scan stands inside [p]. *)
Lemma split_scheme_pieces (r : str) :
  contains scheme_sep r = false ->
  forall (p : str) (k : nat), (k <= List.length p)%nat ->
  exists x l, split_go scheme_sep k (p ++ scheme_sep ++ r) = x :: l ++ [r].
Proof.
  intros Hr. pose proof (split_without_sep _ _ Hr) as Hone.
  unfold split in Hone. rewrite scheme_sep_eq in *.
  induction p as [|c p IH]; intros k Hk.
  - assert (k = 0%nat) by (simpl in Hk; lia). subst k.
    exists [], []. simpl. now rewrite Hone.
  - change ((c :: p) ++ [":"; "/"; "/"] ++ r)
      with (c :: (p ++ [":"; "/"; "/"] ++ r)).
    rewrite split_go_cons. destruct k as [|k].
    + destruct (startswith [":"; "/"; "/"] (c :: p ++ [":"; "/"; "/"] ++ r))
        eqn:E.
      * assert (H2 : (2 <= List.length p)%nat).
        { destruct p as [|d [|d' p]]; simpl in E.
          - rewrite andb_false_r in E. discriminate.
          - rewrite !andb_false_r in E. discriminate.
          - simpl. lia. }
        destruct (IH 2%nat H2) as (x & l & E2).
        exists [], (x :: l). simpl Nat.pred. now rewrite E2.
      * destruct (IH 0%nat (Nat.le_0_l _)) as (x & l & ->).
        exists (c :: x), l. reflexivity.
    + apply IH. simpl in Hk. lia.
Qed.

(** What follows the last ["://"] is what [strip_scheme] keeps. *)
Lemma strip_scheme_last (p r : str) :
  contains scheme_sep r = false ->
  strip_scheme (p ++ scheme_sep ++ r) = r.
Proof.
  intros Hr. unfold strip_scheme. rewrite contains_app.
  destruct (split_scheme_pieces r Hr p 0 (Nat.le_0_l _)) as (x & l & E).
  unfold split. rewrite E.
  change (x :: l ++ [r]) with ((x :: l) ++ [r]). apply last_last.
Qed.

(** Every string that holds the separator has a last occurrence. *)
Lemma last_occurrence (sep s : str) :
  sep <> [] -> contains sep s = true ->
  exists p r, s = p ++ sep ++ r /\ contains sep r = false.
Proof.
  intros Hsep. induction s as [|c s IH]; intros H.
  - simpl in H. rewrite orb_false_r in H.
    destruct sep; [easy|discriminate].
  - destruct (contains sep s) eqn:E.
    + destruct (IH eq_refl) as (p & r & -> & Hr).
      exists (c :: p), r. now split.
    + simpl in H. rewrite E, orb_false_r in H.
      exists [], (skipn (List.length sep) (c :: s)). split.
      * simpl app. clear -H. revert H. generalize (c :: s) as t.
        induction sep as [|a sep IHs]; intros t H.
        -- reflexivity.
        -- destruct t as [|b t]; [discriminate|].
           simpl in H. apply andb_true_iff in H. destruct H as [H1 H2].
           apply Ascii.eqb_eq in H1. subst b. simpl.
           now rewrite <- (IHs t H2).
      * destruct sep as [|a sep]; [easy|].
        simpl skipn. now apply contains_skipn.
Qed.

End ParseFacts.

Module AddressClaims.
Import PyStrFacts Parse ParseFacts.

Local Open Scope char_scope.

(** C3, as stated, fails: on ["a://b://c"] the code keeps ["c"], the
    text after the last ["://"], where keeping the remainder of the
    first occurrence would give ["b://c"]. *)
Lemma strip_scheme_not_after_first :
  contains scheme_sep (lit "a://b://c") = true /\
  after_first scheme_sep (lit "a://b://c") = lit "b://c" /\
  strip_scheme (lit "a://b://c") = lit "c" /\
  strip_scheme (lit "a://b://c") <> after_first scheme_sep (lit "a://b://c").
Proof.
  repeat split; try reflexivity. vm_compute. discriminate.
Qed.

(** C3, amended: for every URI that contains ["://"], scheme stripping
    keeps exactly what follows the last occurrence of ["://"]: the URI
    is [p ++ "://" ++ r] with no ["://"] in [r], and [r] is kept. *)
Theorem strip_scheme_after_last (uri : str) :
  contains scheme_sep uri = true ->
  exists p r,
    uri = p ++ scheme_sep ++ r /\ contains scheme_sep r = false /\
    strip_scheme uri = r.
Proof.
  intros H.
  destruct (last_occurrence scheme_sep uri) as (p & r & -> & Hr);
    [discriminate | exact H |].
  exists p, r. repeat split; [exact Hr|]. now apply strip_scheme_last.
Qed.

Lemma strip_scheme_after_last_witness :
  exists p r,
    lit "http://infinity:23817" = p ++ scheme_sep ++ r /\
    contains scheme_sep r = false /\
    strip_scheme (lit "http://infinity:23817") = r.
Proof.
  apply (strip_scheme_after_last (lit "http://infinity:23817")).
  reflexivity.
Defined.

Lemma digits_no_colon (s : str) :
  forallb isdigit s = true -> contains colon s = false.
Proof.
  rewrite colon_eq. induction s as [|c s IH]; intros H.
  - reflexivity.
  - simpl in H. apply andb_true_iff in H. destruct H as [H1 H2].
    rewrite contains_cons, startswith_char.
    destruct (isdigit_plain c H1) as (_ & _ & _ & _ & -> & _).
    apply (IH H2).
Qed.

Lemma slashes_no_colon (s : str) :
  forallb (Ascii.eqb "/") s = true -> contains colon s = false.
Proof.
  rewrite colon_eq. induction s as [|c s IH]; intros H.
  - reflexivity.
  - apply forallb_cons_true in H. destruct H as [H1 H2].
    apply Ascii.eqb_eq in H1. subst c.
    rewrite contains_cons, startswith_char. apply (IH H2).
Qed.

Lemma contains_colon_app (a b : str) :
  contains colon a = false -> contains colon b = false ->
  contains colon (a ++ b) = false.
Proof.
  rewrite colon_eq. intros Ha Hb. induction a as [|c a IH].
  - exact Hb.
  - apply contains_cons_false in Ha. destruct Ha as [H1 H2].
    rewrite startswith_char in H1.
    change ((c :: a) ++ b) with (c :: (a ++ b)).
    rewrite contains_cons, startswith_char, H1. apply (IH H2).
Qed.

(** [host:port///] holds no ["://"] when the host has no colon and the
    port starts with a digit. *)
Lemma remainder_no_scheme (host port slashes : str) :
  contains colon host = false ->
  port <> [] -> forallb isdigit port = true ->
  forallb (Ascii.eqb "/") slashes = true ->
  contains scheme_sep (host ++ colon ++ port ++ slashes) = false.
Proof.
  intros Hh Hne Hp Hs.
  assert (Htail : contains scheme_sep (port ++ slashes) = false).
  { apply no_colon_no_scheme, contains_colon_app;
      [now apply digits_no_colon | now apply slashes_no_colon]. }
  rewrite scheme_sep_eq, colon_eq in *.
  induction host as [|c host IH].
  - destruct port as [|d port]; [easy|].
    simpl in Hp. apply andb_true_iff in Hp. destruct Hp as [Hd _].
    destruct (isdigit_plain d Hd) as (_ & _ & _ & _ & _ & Hsl).
    change ([] ++ [":"] ++ (d :: port) ++ slashes)
      with (":" :: d :: (port ++ slashes)).
    rewrite contains_cons, !startswith_cons, Hsl, andb_false_r.
    exact Htail.
  - apply contains_cons_false in Hh. destruct Hh as [H1 H2].
    rewrite startswith_char in H1.
    change ((c :: host) ++ [":"] ++ port ++ slashes)
      with (c :: (host ++ [":"] ++ port ++ slashes)).
    rewrite contains_cons, startswith_cons, H1. apply (IH H2).
Qed.

Lemma clean_address_uri (scheme : option str) (host port slashes : str) :
  contains colon host = false ->
  port <> [] -> forallb isdigit port = true ->
  forallb (Ascii.eqb "/") slashes = true ->
  clean (address_uri scheme host port slashes) = host ++ colon ++ port.
Proof.
  intros Hh Hne Hp Hs.
  pose proof (remainder_no_scheme host port slashes Hh Hne Hp Hs) as Hr.
  assert (E : strip_scheme (address_uri scheme host port slashes)
              = host ++ colon ++ port ++ slashes).
  { destruct scheme as [sc|]; unfold address_uri.
    - now apply strip_scheme_last.
    - unfold strip_scheme. now rewrite Hr. }
  unfold clean. rewrite E.
  replace (host ++ colon ++ port ++ slashes)
    with ((host ++ colon ++ port) ++ slashes)
    by (now rewrite <- !app_assoc).
  rewrite rstrip_app_all by exact Hs.
  assert (Hport : rstrip "/" port = port).
  { apply rstrip_none; [exact Hne|].
    rewrite forallb_forall in Hp |- *. intros c Hc.
    now destruct (isdigit_plain c (Hp c Hc)) as (_ & _ & _ & -> & _). }
  rewrite app_assoc, rstrip_app_keep; rewrite Hport; [reflexivity|exact Hne].
Qed.

(** The two colon branches of [parse_body], by the pieces found. *)
Lemma parse_body_two (uri host port_str : str) (t : list event) :
  contains colon (clean uri) = true ->
  split colon (clean uri) = [host; port_str] ->
  parse_body uri t
  = match int_of_str port_str with
    | Some n => (Return {| ip := host; port := n |}, t)
    | None => (Raise (ValueError port_str), t)
    end.
Proof.
  intros Hc Hs. unfold parse_body. rewrite Hc, Hs.
  unfold bind, py_int. now destruct (int_of_str port_str).
Qed.

Lemma parse_body_many (uri : str) (front : list str) (host port_str : str)
    (t : list event) :
  contains colon (clean uri) = true ->
  front <> [] ->
  split colon (clean uri) = front ++ [host; port_str] ->
  parse_body uri t
  = match int_of_str port_str with
    | Some n =>
        (Return {| ip := host; port := n |},
         t ++ [Log WARNING (UnexpectedFormat uri)])
    | None =>
        (Raise (ValueError port_str),
         t ++ [Log WARNING (UnexpectedFormat uri)])
    end.
Proof.
  intros Hc Hf Hs. unfold parse_body. rewrite Hc, Hs.
  assert (Hrev : rev (front ++ [host; port_str])
                 = port_str :: host :: rev front)
    by (now rewrite rev_app_distr).
  assert (E : forall A (two : str -> str -> A) (other : A),
             match front ++ [host; port_str] with
             | [a; b] => two a b
             | _ => other
             end = other).
  { intros A two other. destruct front as [|x [|y [|z front]]]; easy. }
  rewrite E.
  unfold bind, emit, modify, index_m1, index_m2, py_int.
  rewrite Hrev. unfold ret. cbv beta iota.
  now destruct (int_of_str port_str).
Qed.

(** C6, as stated, fails: a port of 4301 digits is a decimal integer,
    yet [int] refuses to convert more than 4300 digits, and the address
    resolved for ["h:11...1"] is the default one, with an error
    record, not the host ["h"]. *)
Lemma parse_host_port_beyond_limit :
  forallb isdigit (repeat "1" 4301) = true /\
  contains colon (lit "h") = false /\
  resolve (address_uri None (lit "h") (repeat "1" 4301) [])
  = (Return default_address,
     [Log ERROR (ParseFailed (address_uri None (lit "h") (repeat "1" 4301) [])
                   (ValueError (repeat "1" 4301)))]) /\
  ip default_address <> lit "h".
Proof.
  split; [vm_compute; reflexivity|].
  split; [vm_compute; reflexivity|].
  split; [vm_compute; reflexivity|].
  vm_compute. discriminate.
Qed.

(** C6, amended: for every URI [scheme://host:port] with an optional
    scheme prefix and optional trailing slashes, where the port is a
    non-empty string of at most 4300 decimal digits and the host holds
    no colon, parsing yields exactly that host and the decimal value of
    that port, and logs nothing. *)
Theorem parse_host_port (scheme : option str) (host port slashes : str) :
  contains colon host = false ->
  port <> [] -> forallb isdigit port = true ->
  (List.length port <= int_max_str_digits)%nat ->
  forallb (Ascii.eqb "/") slashes = true ->
  resolve (address_uri scheme host port slashes)
  = (Return {| ip := host; port := decimal port |}, []).
Proof.
  intros Hh Hne Hp Hlen Hs.
  pose proof (clean_address_uri scheme host port slashes Hh Hne Hp Hs) as Hc.
  unfold resolve, parse_address, try_except.
  rewrite (parse_body_two _ host port).
  - now rewrite (int_of_digits port Hne Hp Hlen).
  - rewrite Hc. apply (contains_app colon host port).
  - rewrite Hc, colon_eq.
    change (host ++ [":"] ++ port) with (host ++ ":" :: port).
    rewrite split_char_app.
    rewrite (split_without_sep [":"] host) by exact Hh.
    rewrite (split_without_sep [":"] port) by (now apply digits_no_colon).
    reflexivity.
Qed.

Lemma parse_host_port_witness :
  resolve (lit "http://infinity:23817/")
  = (Return {| ip := lit "infinity"; port := 23817 |}, []).
Proof.
  apply (parse_host_port (Some (lit "http")) (lit "infinity")
           (lit "23817") (lit "/"));
    [reflexivity | discriminate | reflexivity
    | apply Nat.leb_le; reflexivity | reflexivity].
Defined.

Lemma colons_contains (s : str) :
  (1 <= colons s)%nat -> contains colon s = true.
Proof.
  rewrite colon_eq. unfold colons. induction s as [|c s IH]; intros H.
  - simpl in H. lia.
  - rewrite contains_cons, startswith_char.
    destruct (Ascii.eqb_spec ":" c) as [->|Hc]; [reflexivity|].
    rewrite count_occ_cons_neq in H by congruence. apply (IH H).
Qed.

Lemma no_colon_colons (s : str) :
  contains colon s = false -> colons s = 0%nat.
Proof.
  rewrite colon_eq. unfold colons. induction s as [|c s IH]; intros H.
  - reflexivity.
  - apply contains_cons_false in H. destruct H as [H1 H2].
    rewrite startswith_char in H1. apply Ascii.eqb_neq in H1.
    rewrite count_occ_cons_neq by congruence. apply (IH H2).
Qed.

(** A string with two colons or more ends in two colon-free segments. *)
Lemma last_two_segments (s : str) :
  (2 <= colons s)%nat ->
  exists front host port_str,
    s = front ++ colon ++ host ++ colon ++ port_str /\
    contains colon host = false /\ contains colon port_str = false.
Proof.
  intros H.
  destruct (last_occurrence colon s) as (a & p & -> & Hp);
    [discriminate | apply colons_contains; lia |].
  assert (Ha : (1 <= colons a)%nat).
  { unfold colons in *. rewrite colon_eq in H.
    rewrite count_occ_app in H. simpl app in H.
    rewrite count_occ_cons_eq in H by reflexivity.
    apply no_colon_colons in Hp. unfold colons in Hp. lia. }
  destruct (last_occurrence colon a) as (f & h & -> & Hh);
    [discriminate | now apply colons_contains |].
  exists f, h, p. rewrite <- !app_assoc. now repeat split.
Qed.

(** C7, as stated, fails: ["a:b:c"] has more than one colon, yet its
    last segment is no integer, [int] raises, and the address resolved
    is the default one, not the host ["b"]. *)
Lemma multi_colon_not_numeric :
  colons (clean (lit "a:b:c")) = 2%nat /\
  resolve (lit "a:b:c")
  = (Return default_address,
     [Log WARNING (UnexpectedFormat (lit "a:b:c"));
      Log ERROR (ParseFailed (lit "a:b:c") (ValueError (lit "c")))]) /\
  ip default_address <> lit "b".
Proof.
  repeat split. vm_compute. discriminate.
Qed.

(** C7, amended: for every URI whose remainder after scheme and slash
    stripping has more than one colon, parsing first logs a warning;
    when the last colon-delimited segment is an integer literal, the
    address is the second-to-last segment with that integer as port and
    nothing else is logged; when it is not, the address is the default
    one and the parse error is logged after the warning. *)
Theorem parse_multi_colon (uri : str) :
  (2 <= colons (clean uri))%nat ->
  exists front host port_str,
    clean uri = front ++ colon ++ host ++ colon ++ port_str /\
    contains colon host = false /\ contains colon port_str = false /\
    resolve uri
    = match int_of_str port_str with
      | Some n =>
          (Return {| ip := host; port := n |},
           [Log WARNING (UnexpectedFormat uri)])
      | None =>
          (Return default_address,
           [Log WARNING (UnexpectedFormat uri);
            Log ERROR (ParseFailed uri (ValueError port_str))])
      end.
Proof.
  intros H.
  destruct (last_two_segments (clean uri) H) as (f & h & p & E & Hh & Hp).
  exists f, h, p. repeat split; try assumption.
  unfold resolve, parse_address, try_except.
  rewrite (parse_body_many uri (split colon f) h p).
  - now destruct (int_of_str p).
  - apply colons_contains. lia.
  - apply split_go_nonempty.
  - rewrite E, colon_eq.
    change (f ++ [":"] ++ h ++ [":"] ++ p) with (f ++ ":" :: (h ++ ":" :: p)).
    rewrite !split_char_app.
    rewrite (split_without_sep [":"] h) by exact Hh.
    rewrite (split_without_sep [":"] p) by exact Hp.
    reflexivity.
Qed.

Lemma parse_multi_colon_witness :
  exists front host port_str,
    clean (lit "host:extra:1234")
    = front ++ colon ++ host ++ colon ++ port_str /\
    contains colon host = false /\ contains colon port_str = false /\
    resolve (lit "host:extra:1234")
    = match int_of_str port_str with
      | Some n =>
          (Return {| ip := host; port := n |},
           [Log WARNING (UnexpectedFormat (lit "host:extra:1234"))])
      | None =>
          (Return default_address,
           [Log WARNING (UnexpectedFormat (lit "host:extra:1234"));
            Log ERROR (ParseFailed (lit "host:extra:1234")
                         (ValueError port_str))])
      end.
Proof.
  apply (parse_multi_colon (lit "host:extra:1234")).
  vm_compute. apply le_n.
Defined.

(** The example of the specification, evaluated. *)
Example parse_host_extra_1234 :
  resolve (lit "host:extra:1234")
  = (Return {| ip := lit "extra"; port := 1234 |},
     [Log WARNING (UnexpectedFormat (lit "host:extra:1234"))]).
Proof. reflexivity. Qed.

(** Parsing never raises: its handler catches whatever the body
    raises. *)
Lemma parse_address_returns (uri : str) (t : list event) :
  exists a t', parse_address uri t = (Return a, t').
Proof.
  unfold parse_address, try_except.
  destruct (parse_body uri t) as [[a|e] t'];
    eexists; eexists; reflexivity.
Qed.

(** C8: for every URI whose parsing raises an exception, the parse
    returns normally with the default address 127.0.0.1:23817, and an
    error record is logged after whatever was logged before the
    exception; the exception does not reach the caller. *)
Theorem parse_failure_recovers (uri : str) (e : exn) (t : list event) :
  parse_body uri [] = (Raise e, t) ->
  resolve uri
  = (Return {| ip := lit "127.0.0.1"; port := 23817 |},
     t ++ [Log ERROR (ParseFailed uri e)]).
Proof.
  intros H. unfold resolve, parse_address, try_except. rewrite H.
  reflexivity.
Qed.

Lemma parse_failure_recovers_witness :
  resolve (lit "infinity:abc")
  = (Return {| ip := lit "127.0.0.1"; port := 23817 |},
     [] ++ [Log ERROR (ParseFailed (lit "infinity:abc")
                         (ValueError (lit "abc")))]).
Proof.
  apply (parse_failure_recovers (lit "infinity:abc")
           (ValueError (lit "abc")) []).
  reflexivity.
Defined.

(** [int] skips white space around a literal but not the separators 28
    to 31. *)
Example int_of_str_edges :
  int_of_str (lit " 5" ++ [ascii_of_nat 9; ascii_of_nat 10]) = Some 5 /\
  int_of_str [ascii_of_nat 133; "5"; ascii_of_nat 160] = Some 5 /\
  int_of_str [ascii_of_nat 28; "5"] = None /\
  int_of_str ["5"; ascii_of_nat 31] = None /\
  int_of_str (lit "1_0") = Some 10 /\
  int_of_str (lit "- 5") = None.
Proof. repeat split; vm_compute; reflexivity. Qed.

(** A port segment that starts with the separator 28 is no literal for
    [int]: the parse raises and recovers with the default address, with
    one colon as with two. *)
Example parse_separator_port :
  resolve (lit "infinity:" ++ [ascii_of_nat 28; "5"])
  = (Return default_address,
     [Log ERROR (ParseFailed (lit "infinity:" ++ [ascii_of_nat 28; "5"])
                   (ValueError [ascii_of_nat 28; "5"]))]) /\
  resolve (lit "host:extra:" ++ [ascii_of_nat 28; "5"])
  = (Return default_address,
     [Log WARNING (UnexpectedFormat
                     (lit "host:extra:" ++ [ascii_of_nat 28; "5"]));
      Log ERROR (ParseFailed (lit "host:extra:" ++ [ascii_of_nat 28; "5"])
                   (ValueError [ascii_of_nat 28; "5"]))]).
Proof. split; vm_compute; reflexivity. Qed.

End AddressClaims.

(** ** The manager *)

Module ManagerFacts.
Import InfinityConnectionPool.

Section WithLibrary.
Variable L : Library.

Let state := state L.

Lemma advance_app (s : state) (w w' : World L) (a b : list event) :
  advance (advance s w a) w' b = advance s w' (a ++ b).
Proof. unfold advance; simpl. now rewrite app_assoc. Qed.

Ltac run :=
  unfold refresh_conn_pool, try_except, probe, rebuild, get_conn, destroy,
    show_current_node, ConnectionPool, get_conn_pool_attr,
    get_infinity_uri, hasattr_conn_pool, set_conn_pool, fresh, emit,
    call, bind, gets, modify, ret, raise, advance;
  cbn [world trace next_obj self_infinity_uri self_conn_pool truthy].

Lemma probe_fails_run (s : state) (h : handle) e w evs :
  self_conn_pool s = Some (VPool h) ->
  probe_fails s h e w evs ->
  probe s = (Raise e, advance s w evs).
Proof.
  intros Hp Hf. destruct Hf as [e w Hg | c w1 e w Hg Hs | c w1 res w Hg Hs Hb];
    run; rewrite Hp; cbn; rewrite Hg; cbn; try (rewrite Hs; cbn);
    try rewrite Hb; rewrite ?Hp, <- ?app_assoc; reflexivity.
Qed.

Lemma probe_succeeds_run (s : state) (h : handle) w evs :
  self_conn_pool s = Some (VPool h) ->
  probe_succeeds s h w evs ->
  probe s = (Return (VPool h), advance s w evs).
Proof.
  intros Hp Hf. destruct Hf as [c w1 status w Hg Hs Hst].
  run. rewrite Hp; cbn. rewrite Hg; cbn. rewrite Hs; cbn.
  assert (Hh : healthy (ErrorCode_OK, status) = true)
    by (destruct Hst as [-> | ->]; reflexivity).
  rewrite Hh, Hp, <- app_assoc. reflexivity.
Qed.

Lemma probe_fails_no_destroy (s : state) (h : handle) e w evs k :
  probe_fails s h e w evs -> count (is_destroy k) evs = 0%nat.
Proof. intros Hf; destruct Hf; reflexivity. Qed.

(** C5: for every call of [refresh_conn_pool] in which the probe
    returns OK with a server state of started or alive, the value
    returned is the pool that was stored before the call, the stored
    handle is unchanged, and the call only borrowed a connection and
    probed: nothing was built or destroyed. *)
Theorem refresh_healthy (s : state) (h : handle) w evs :
  self_conn_pool s = Some (VPool h) ->
  probe_succeeds s h w evs ->
  exists s',
    refresh_conn_pool s = (Return (VPool h), s') /\
    self_conn_pool s' = self_conn_pool s /\
    self_infinity_uri s' = self_infinity_uri s /\
    next_obj s' = next_obj s /\
    trace s' = trace s ++ evs /\
    count is_pool_new evs = 0%nat /\ count (is_destroy h) evs = 0%nat.
Proof.
  intros Hp Hok. exists (advance s w evs).
  unfold refresh_conn_pool, try_except.
  rewrite (probe_succeeds_run s h w evs Hp Hok).
  destruct Hok. repeat split.
Qed.

(** C4, amended: for every call of [refresh_conn_pool] in which the
    probe fails or raises while a pool is stored, and in which the
    library's [destroy] and pool constructor return normally, the
    prior pool is destroyed exactly once, a new pool is constructed at
    the stored address with size 32, and the value returned and stored
    is this new pool, distinct from the prior one. *)
Theorem refresh_rebuilds (s : state) (h : handle) (addr : NetworkAddress)
    e w1 evs w2 w3 :
  self_conn_pool s = Some (VPool h) ->
  self_infinity_uri s = Some addr ->
  (h < next_obj s)%nat ->
  probe_fails s h e w1 evs ->
  lib_destroy L h w1 = (Return tt, w2) ->
  lib_pool_init L addr 32 (next_obj s) w2 = (Return tt, w3) ->
  exists h' s' evs',
    refresh_conn_pool s = (Return (VPool h'), s') /\
    h' <> h /\
    self_conn_pool s' = Some (VPool h') /\
    self_infinity_uri s' = Some addr /\
    trace s' = trace s ++ evs' /\
    evs' = evs ++ [Log ERROR (Str e); Destroy h; PoolNew addr 32 h'] /\
    count (is_destroy h) evs' = 1%nat /\
    count is_pool_new evs' = 1%nat.
Proof.
  intros Hp Ha Hlt Hf Hd Hn.
  exists (next_obj s).
  eexists. exists (evs ++ [Log ERROR (Str e); Destroy h;
                           PoolNew addr 32 (next_obj s)]).
  unfold refresh_conn_pool, try_except.
  rewrite (probe_fails_run s h e w1 evs Hp Hf).
  run. rewrite Hp; cbn. rewrite Hd; cbn. rewrite Ha; cbn.
  rewrite Hn; cbn.
  split; [reflexivity|]. cbn.
  repeat split.
  - lia.
  - now rewrite <- !app_assoc.
  - unfold count. rewrite filter_app, length_app.
    fold (count (is_destroy h) evs).
    rewrite (probe_fails_no_destroy s h e w1 evs h Hf).
    cbn. now rewrite Nat.eqb_refl.
  - destruct Hf; reflexivity.
Qed.

(** C9: if, after a failed or raising probe, the prior pool is
    destroyed and the construction of the replacement raises, that
    exception leaves [refresh_conn_pool]: the constructor was called
    once, nothing slept or retried, and the stored handle is still the
    prior, destroyed pool. *)
Theorem refresh_rebuild_raises (s : state) (h : handle)
    (addr : NetworkAddress) e w1 evs w2 e' w3 :
  self_conn_pool s = Some (VPool h) ->
  self_infinity_uri s = Some addr ->
  probe_fails s h e w1 evs ->
  lib_destroy L h w1 = (Return tt, w2) ->
  lib_pool_init L addr 32 (next_obj s) w2 = (Raise e', w3) ->
  exists s' evs',
    refresh_conn_pool s = (Raise e', s') /\
    self_conn_pool s' = Some (VPool h) /\
    trace s' = trace s ++ evs' /\
    evs' = evs ++ [Log ERROR (Str e); Destroy h;
                   PoolNew addr 32 (next_obj s)] /\
    count is_pool_new evs' = 1%nat /\ count is_sleep evs' = 0%nat.
Proof.
  intros Hp Ha Hf Hd Hn.
  eexists. exists (evs ++ [Log ERROR (Str e); Destroy h;
                           PoolNew addr 32 (next_obj s)]).
  unfold refresh_conn_pool, try_except.
  rewrite (probe_fails_run s h e w1 evs Hp Hf).
  run. rewrite Hp; cbn. rewrite Hd; cbn. rewrite Ha; cbn.
  rewrite Hn; cbn.
  split; [reflexivity|]. cbn.
  repeat split; try (now rewrite <- !app_assoc);
    destruct Hf; reflexivity.
Qed.

(** C10: in every state whose [conn_pool] attribute is absent or
    [None], the probe raises, and [refresh_conn_pool] logs the error
    and returns [None]: no library call is made, no pool is built,
    stored or returned. *)
Theorem refresh_without_pool (s : state) :
  self_conn_pool s = None \/ self_conn_pool s = Some VNone ->
  probe s = (Raise (missing_pool (self_conn_pool s)), s) /\
  refresh_conn_pool s
  = (Return VNone,
     advance s (world s)
       [Log ERROR (Str (missing_pool (self_conn_pool s)))]).
Proof.
  intros [H | H]; run; rewrite H; cbn; rewrite ?H; split; reflexivity.
Qed.

(** *** The retry loop of the construction *)

Lemma extends_refl (s : state) : extends s s.
Proof.
  split; auto. exists []. now rewrite app_nil_r.
Qed.

Lemma extends_trans (a b c : state) :
  extends a b -> extends b c -> extends a c.
Proof.
  intros [n1 a1 (e1 & t1 & c1) w1 p1] [n2 a2 (e2 & t2 & c2) w2 p2].
  split.
  - lia.
  - congruence.
  - exists (e1 ++ e2). split.
    + now rewrite t2, t1, app_assoc.
    + unfold count in *. rewrite filter_app, length_app. lia.
  - auto.
  - destruct p2 as [p2 | p2]; [rewrite p2; exact p1 | now right].
Qed.

Ltac unfold_round :=
  unfold round, round_body, try_except, ConnectionPool, get_conn,
    show_current_node, release_conn, sleep, get_infinity_uri,
    get_conn_pool_attr, set_conn_pool, fresh, emit, call, bind, gets,
    modify, ret, raise;
  cbn [world trace next_obj self_infinity_uri self_conn_pool].

Ltac lib_case :=
  match goal with
  | |- context [lib_pool_init L ?a ?n ?h ?w] =>
      destruct (lib_pool_init L a n h w) as [[[]|?] ?] eqn:?
  | |- context [lib_get_conn L ?h ?w] =>
      destruct (lib_get_conn L h w) as [[?|?] ?] eqn:?
  | |- context [lib_show_current_node L ?c ?w] =>
      destruct (lib_show_current_node L c w) as [[?|?] ?] eqn:?
  | |- context [lib_release_conn L ?h ?c ?w] =>
      destruct (lib_release_conn L h c w) as [[[]|?] ?] eqn:?
  | |- context [lib_destroy L ?h ?w] =>
      destruct (lib_destroy L h w) as [[[]|?] ?] eqn:?
  | |- context [healthy ?r] => destruct (healthy r) eqn:?
  end;
  cbn [world trace next_obj self_infinity_uri self_conn_pool].

Ltac extends_leaf :=
  split; cbn [world trace next_obj self_infinity_uri self_conn_pool];
  [ lia
  | reflexivity
  | eexists; split; [rewrite <- ?app_assoc; reflexivity | reflexivity]
  | unfold wf; cbn [next_obj self_conn_pool]; intros Hwf k Hk;
    first [ injection Hk as <-; lia
          | specialize (Hwf k Hk); lia ]
  | first [ left; reflexivity | right; eexists; reflexivity ] ].

(** A round never raises, and extends the state. *)
Lemma round_extends (uri : str) (s : state) :
  exists b s', round uri s = (Return b, s') /\ extends s s'.
Proof.
  unfold_round. destruct (self_infinity_uri s) as [addr|] eqn:Ha;
    cbn [world trace next_obj self_infinity_uri self_conn_pool];
    repeat lib_case;
    eexists; eexists; (split; [reflexivity|]);
    rewrite <- ?Ha; extends_leaf.
Qed.

(** Neither does the loop. *)
Lemma retry_extends (n : nat) (uri : str) (s : state) :
  exists s', retry n uri s = (Return tt, s') /\ extends s s'.
Proof.
  revert s. induction n as [|n IH]; intros s.
  - exists s. split; [reflexivity | apply extends_refl].
  - destruct (round_extends uri s) as (b & s1 & E1 & X1).
    cbn [retry]. unfold bind at 1. rewrite E1.
    destruct b.
    + exists s1. split; [reflexivity | exact X1].
    + destruct (IH s1) as (s2 & E2 & X2).
      exists s2. split; [exact E2 | exact (extends_trans _ _ _ X1 X2)].
Qed.

Lemma round_never_healthy (uri : str) (s : state) :
  never_healthy L ->
  exists s', round uri s = (Return false, s') /\
             self_conn_pool s' = self_conn_pool s.
Proof.
  intros Hnever. unfold_round.
  destruct (self_infinity_uri s) as [addr|] eqn:Ha;
    cbn [world trace next_obj self_infinity_uri self_conn_pool];
    repeat lib_case;
    try (eexists; split; reflexivity).
  all: match goal with
  | H : lib_show_current_node L _ _ = (Return ?r, _),
    H' : healthy ?r = true |- _ =>
      rewrite (Hnever _ _ _ _ H) in H'; discriminate H'
  end.
Qed.

Lemma retry_never_healthy (n : nat) (uri : str) (s : state) :
  never_healthy L ->
  self_conn_pool (snd (retry n uri s)) = self_conn_pool s.
Proof.
  intros Hnever. revert s. induction n as [|n IH]; intros s.
  - reflexivity.
  - destruct (round_never_healthy uri s Hnever) as (s1 & E1 & P1).
    cbn [retry]. unfold bind at 1. rewrite E1.
    rewrite IH. exact P1.
Qed.

(** A round whose [try] block raises logs a warning and sleeps five
    seconds. *)
Lemma round_raises_backoff (uri : str) (s s1 : state) (e : exn) :
  round_body s = (Raise e, s1) ->
  round uri s
  = (Return false,
     advance s1 (world s1) [Log WARNING (Waiting e uri); Sleep 5]).
Proof.
  intros H. unfold round, try_except. rewrite H.
  unfold sleep, emit, bind, modify, ret, advance. cbn.
  now rewrite <- app_assoc.
Qed.

(** X19: a round whose probe answers with a bad status or state, without
    raising, ends in silence: the pool is built, a connection is
    borrowed and probed, and the loop goes on at once, with no
    warning and no sleep. *)
Lemma round_bad_status_silent (uri : str) (s : state)
    (addr : NetworkAddress) w1 c w2 res w3 :
  self_infinity_uri s = Some addr ->
  lib_pool_init L addr 4 (next_obj s) (world s) = (Return tt, w1) ->
  lib_get_conn L (next_obj s) w1 = (Return c, w2) ->
  lib_show_current_node L c w2 = (Return res, w3) ->
  healthy res = false ->
  exists s',
    round uri s = (Return false, s') /\
    trace s' = trace s ++ [PoolNew addr 4 (next_obj s);
                           GetConn (next_obj s); ShowCurrentNode c] /\
    self_conn_pool s' = self_conn_pool s.
Proof.
  intros Ha Hn Hg Hs Hb. unfold_round.
  rewrite Ha; cbn. rewrite Hn; cbn. rewrite Hg; cbn. rewrite Hs; cbn.
  rewrite Hb. eexists. split; [reflexivity|]. cbn.
  split; [now rewrite <- !app_assoc | reflexivity].
Qed.

(** Without a stored pool the check after the loop raises
    [AttributeError] before anything is logged. *)
Lemma check_healthy_absent (uri : str) (s : state) :
  self_conn_pool s = None ->
  check_healthy uri s
  = (Raise (AttributeError "InfinityConnectionPool" "conn_pool"), s).
Proof.
  intros H. unfold check_healthy, get_conn_pool_attr, bind, gets.
  now rewrite H.
Qed.

Lemma init_steps (uri : str) (s : state) (addr : NetworkAddress)
    (t : list event) :
  Parse.parse_address uri (trace s) = (Return addr, t) ->
  __init__ uri s
  = match retry 24 uri (parsed s t addr) with
    | (Return _, s2) => check_healthy uri s2
    | (Raise e, s2) => (Raise e, s2)
    end.
Proof.
  intros H. unfold __init__, bind, lift_parse, set_infinity_uri, modify.
  rewrite H. reflexivity.
Qed.

(** X18: when no probe ever reports a healthy server, construction ends
    with [AttributeError]: no pool is stored, and from the retry loop
    on no error record is logged. *)
Lemma init_never_healthy (uri : str) (w : World L) :
  never_healthy L ->
  exists s' evs,
    __init__ uri (new_object L w)
    = (Raise (AttributeError "InfinityConnectionPool" "conn_pool"), s') /\
    self_conn_pool s' = None /\
    trace s' = snd (Parse.resolve uri) ++ evs /\
    count (is_log ERROR) evs = 0%nat.
Proof.
  intros Hnever. unfold Parse.resolve.
  destruct (AddressClaims.parse_address_returns uri []) as (a & t & Ep).
  rewrite (init_steps uri (new_object L w) a t Ep), Ep.
  destruct (retry_extends 24 uri (parsed (new_object L w) t a))
    as (s2 & E2 & X2).
  pose proof (retry_never_healthy 24 uri (parsed (new_object L w) t a)
                Hnever) as P2.
  rewrite E2 in *. cbn [snd self_conn_pool parsed new_object] in P2.
  rewrite (check_healthy_absent uri s2 P2).
  destruct X2 as [_ _ (evs & Ht & Hc) _ _]. cbn [trace parsed] in Ht.
  exists s2, evs. now repeat split.
Qed.

(** A construction that returns leaves a well-formed manager: an
    address and an allocated pool are stored. *)
Lemma init_establishes (uri : str) (w : World L) (s' : state) :
  __init__ uri (new_object L w) = (Return tt, s') ->
  wf s' /\
  (exists h, self_conn_pool s' = Some (VPool h)) /\
  (exists addr, self_infinity_uri s' = Some addr).
Proof.
  destruct (AddressClaims.parse_address_returns uri []) as (a & t & Ep).
  rewrite (init_steps uri (new_object L w) a t Ep).
  destruct (retry_extends 24 uri (parsed (new_object L w) t a))
    as (s2 & E2 & X2).
  rewrite E2.
  destruct X2 as [_ Xa _ Xw _]. cbn [self_infinity_uri parsed] in Xa.
  unfold check_healthy, get_conn_pool_attr, bind, gets, emit, modify,
    raise, ret.
  destruct (self_conn_pool s2) as [[|h]|] eqn:P2; try discriminate.
  intros H. injection H as <-.
  cbn [world trace next_obj self_infinity_uri self_conn_pool].
  repeat split.
  - intros k Hk. cbn [self_conn_pool next_obj] in *.
    apply Xw; [|congruence]. intros k' Hk'. discriminate Hk'.
  - now exists h.
  - now exists a.
Qed.

(** [refresh_conn_pool] keeps the manager well formed, whatever the
    library does. *)
Lemma refresh_wf (s : state) :
  wf s -> wf (snd (refresh_conn_pool s)).
Proof.
  intros Hwf.
  unfold refresh_conn_pool, try_except, probe, rebuild, get_conn, destroy,
    show_current_node, ConnectionPool, get_conn_pool_attr,
    get_infinity_uri, hasattr_conn_pool, set_conn_pool, fresh, emit,
    call, bind, gets, modify, ret, raise.
  cbn [world trace next_obj self_infinity_uri self_conn_pool].
  destruct (self_conn_pool s) as [[|h]|] eqn:P;
    destruct (self_infinity_uri s) as [addr|] eqn:A;
    cbn [world trace next_obj self_infinity_uri self_conn_pool truthy snd];
    repeat (lib_case; cbn [truthy snd]);
    rewrite ?P, ?A;
    cbn [world trace next_obj self_infinity_uri self_conn_pool truthy snd];
    repeat (lib_case; cbn [truthy snd]);
    unfold wf; cbn [next_obj self_conn_pool]; intros k Hk;
    try discriminate Hk;
    try (injection Hk as <-; first [lia | specialize (Hwf _ P); lia]).
Qed.

End WithLibrary.
End ManagerFacts.

(** ** Runs against the scripted server *)

Module Runs.
Import InfinityConnectionPool ManagerFacts Scenario.

Local Open Scope nat_scope.

(** C1, at a server that never answers the probe: after 24 rounds, each
    with its warning and its sleep, construction ends with
    [AttributeError] on the unset [conn_pool] attribute. No pool is
    stored, and no error record is logged before the exception leaves:
    lines 84-86 are not reached. *)
Theorem construct_unhealthy_no_error_log :
  fst (construct [])
  = Raise (AttributeError "InfinityConnectionPool" "conn_pool") /\
  self_conn_pool (snd (construct [])) = None /\
  count is_pool_new (trace (snd (construct []))) = 24 /\
  count (is_log WARNING) (trace (snd (construct []))) = 24 /\
  count is_sleep (trace (snd (construct []))) = 24 /\
  count (is_log ERROR) (trace (snd (construct []))) = 0.
Proof. vm_compute. repeat split. Qed.

(** The same at a server that answers every probe with a bad state. *)
Example construct_never_started :
  fst (construct (repeat Scripted.starting 24))
  = Raise (AttributeError "InfinityConnectionPool" "conn_pool") /\
  count (is_log ERROR)
    (trace (snd (construct (repeat Scripted.starting 24)))) = 0.
Proof. vm_compute. split; reflexivity. Qed.

(** C2, at a server whose first four probes answer OK with the state
    ["starting"] and whose fifth answers ["started"]: construction
    succeeds at the fifth round, but the four failed rounds logged no
    warning and slept not once. *)
Theorem construct_bad_status_no_backoff :
  fst (construct (repeat Scripted.starting 4 ++ [Scripted.ok])) = Return tt /\
  self_conn_pool
    (snd (construct (repeat Scripted.starting 4 ++ [Scripted.ok])))
  = Some (VPool 4) /\
  count is_pool_new
    (trace (snd (construct (repeat Scripted.starting 4 ++ [Scripted.ok]))))
  = 5 /\
  count (is_log WARNING)
    (trace (snd (construct (repeat Scripted.starting 4 ++ [Scripted.ok]))))
  = 0 /\
  count is_sleep
    (trace (snd (construct (repeat Scripted.starting 4 ++ [Scripted.ok]))))
  = 0.
Proof. vm_compute. repeat split. Qed.

(** When the first four probes raise instead, the four warnings and the
    four sleeps of five seconds are there, and the loop stops at the
    fifth round. *)
Example construct_raising_backoff :
  fst (construct (repeat Scripted.Throws 4 ++ [Scripted.ok])) = Return tt /\
  self_conn_pool
    (snd (construct (repeat Scripted.Throws 4 ++ [Scripted.ok])))
  = Some (VPool 4) /\
  count is_pool_new
    (trace (snd (construct (repeat Scripted.Throws 4 ++ [Scripted.ok]))))
  = 5 /\
  count (is_log WARNING)
    (trace (snd (construct (repeat Scripted.Throws 4 ++ [Scripted.ok]))))
  = 4 /\
  filter is_sleep
    (trace (snd (construct (repeat Scripted.Throws 4 ++ [Scripted.ok]))))
  = repeat (Sleep 5) 4.
Proof. vm_compute. repeat split. Qed.

(** C4, as stated, fails: the server is away, the probe raises, the
    prior pool is destroyed, and the constructor of the replacement
    raises too; no pool is returned. *)
Lemma refresh_rebuild_not_always :
  self_conn_pool (server_away (manager [])) = Some (VPool 0) /\
  fst (probe (server_away (manager [])))
  = Raise (LibraryError "no answer") /\
  fst (refresh_conn_pool (server_away (manager [])))
  = Raise (LibraryError "connection refused") /\
  ~ rebuilt (server_away (manager [])) 0.
Proof.
  repeat split. intros (h' & s' & evs & H & _).
  apply (f_equal fst) in H. vm_compute in H. discriminate H.
Qed.

Lemma refresh_rebuilds_witness :
  exists h' s' evs',
    refresh_conn_pool (manager []) = (Return (VPool h'), s') /\
    h' <> 0 /\
    self_conn_pool s' = Some (VPool h') /\
    self_infinity_uri s' = Some configured_address /\
    trace s' = trace (manager []) ++ evs' /\
    evs' = [GetConn 0; ShowCurrentNode 0] ++
           [Log ERROR (Str (LibraryError "no answer")); Destroy 0;
            PoolNew configured_address 32 h'] /\
    count (is_destroy 0) evs' = 1 /\
    count is_pool_new evs' = 1.
Proof.
  apply (refresh_rebuilds Scripted.library (manager []) 0 configured_address
           (LibraryError "no answer") (Scripted.up [])
           [GetConn 0; ShowCurrentNode 0] (Scripted.up []) (Scripted.up [])).
  - reflexivity.
  - reflexivity.
  - vm_compute. apply le_n.
  - apply show_raises with (w1 := Scripted.up []); reflexivity.
  - reflexivity.
  - reflexivity.
Defined.

Lemma refresh_healthy_witness :
  exists s',
    refresh_conn_pool (manager [Scripted.ok]) = (Return (VPool 0), s') /\
    self_conn_pool s' = self_conn_pool (manager [Scripted.ok]) /\
    self_infinity_uri s' = self_infinity_uri (manager [Scripted.ok]) /\
    next_obj s' = next_obj (manager [Scripted.ok]) /\
    trace s' = trace (manager [Scripted.ok])
               ++ [GetConn 0; ShowCurrentNode 0] /\
    count is_pool_new [GetConn 0; ShowCurrentNode 0] = 0 /\
    count (is_destroy 0) [GetConn 0; ShowCurrentNode 0] = 0.
Proof.
  apply (refresh_healthy Scripted.library (manager [Scripted.ok]) 0
           (Scripted.up []) [GetConn 0; ShowCurrentNode 0]).
  - reflexivity.
  - apply good_status
      with (w1 := Scripted.up [Scripted.ok]) (status := lit "started").
    + reflexivity.
    + reflexivity.
    + left. reflexivity.
Defined.

Lemma refresh_rebuild_raises_witness :
  exists s' evs',
    refresh_conn_pool (server_away (manager []))
    = (Raise (LibraryError "connection refused"), s') /\
    self_conn_pool s' = Some (VPool 0) /\
    trace s' = trace (server_away (manager [])) ++ evs' /\
    evs' = [GetConn 0; ShowCurrentNode 0] ++
           [Log ERROR (Str (LibraryError "no answer")); Destroy 0;
            PoolNew configured_address 32
              (next_obj (server_away (manager [])))] /\
    count is_pool_new evs' = 1 /\ count is_sleep evs' = 0.
Proof.
  apply (refresh_rebuild_raises Scripted.library (server_away (manager []))
           0 configured_address (LibraryError "no answer")
           (world (server_away (manager [])))
           [GetConn 0; ShowCurrentNode 0]
           (world (server_away (manager [])))
           (LibraryError "connection refused")
           (world (server_away (manager [])))).
  - reflexivity.
  - reflexivity.
  - apply show_raises with (w1 := world (server_away (manager [])));
      reflexivity.
  - reflexivity.
  - reflexivity.
Defined.

Lemma refresh_without_pool_witness :
  probe (new_object Scripted.library (Scripted.up []))
  = (Raise (missing_pool None),
     new_object Scripted.library (Scripted.up [])) /\
  refresh_conn_pool (new_object Scripted.library (Scripted.up []))
  = (Return VNone,
     advance
       (new_object Scripted.library (Scripted.up [])) (Scripted.up [])
       [Log ERROR (Str (missing_pool None))]).
Proof.
  apply (refresh_without_pool Scripted.library
           (new_object Scripted.library (Scripted.up []))).
  left. reflexivity.
Defined.

End Runs.

(** * Further properties of the code *)

(** ** Address parsing: the other branches and edge cases *)

Module ParseExtras.
Import PyStrFacts Parse ParseFacts AddressClaims.

Local Open Scope char_scope.

Lemma rstrip_cons (ch c : ascii) (s : str) :
  rstrip ch (c :: s)
  = match rstrip ch s with
    | [] => if Ascii.eqb c ch then [] else [c]
    | r => c :: r
    end.
Proof. reflexivity. Qed.

Lemma rstrip_keeps_no_colon (s : str) :
  contains colon s = false -> contains colon (rstrip "/" s) = false.
Proof.
  rewrite colon_eq. induction s as [|c s IH]; intros H.
  - reflexivity.
  - apply contains_cons_false in H. destruct H as [H1 H2].
    rewrite startswith_char in H1. specialize (IH H2).
    rewrite rstrip_cons. destruct (rstrip "/" s) as [|a r].
    + destruct (Ascii.eqb c "/"); [reflexivity|].
      now rewrite contains_cons, startswith_char, H1.
    + now rewrite contains_cons, startswith_char, H1.
Qed.

(** [rstrip] stops at the first character from the right that is not
    the one to strip. *)
Lemma rstrip_stops (ch : ascii) (a : str) (c : ascii) (x : str) :
  Ascii.eqb c ch = false ->
  rstrip ch (a ++ c :: x) = a ++ c :: rstrip ch x.
Proof.
  intros Hc. induction a as [|b a IH].
  - simpl app. rewrite rstrip_cons, Hc. now destruct (rstrip ch x).
  - change ((b :: a) ++ c :: x) with (b :: (a ++ c :: x)).
    rewrite rstrip_cons, IH. now destruct a.
Qed.

(** [host:tail] holds no ["://"] when neither side has a colon and the
    tail does not start with a slash. *)
Lemma host_tail_no_scheme (host tail : str) :
  contains colon host = false -> contains colon tail = false ->
  startswith ["/"] tail = false ->
  contains scheme_sep (host ++ colon ++ tail) = false.
Proof.
  intros Hh Ht Hs. pose proof (no_colon_no_scheme tail Ht) as Hn.
  rewrite scheme_sep_eq, colon_eq in *.
  induction host as [|c host IH].
  - change ([] ++ [":"] ++ tail) with (":" :: tail).
    rewrite contains_cons, startswith_cons, Hn.
    destruct tail as [|d tail]; [reflexivity|].
    rewrite startswith_char in Hs.
    now rewrite startswith_cons, Hs, andb_false_r.
  - apply contains_cons_false in Hh. destruct Hh as [H1 H2].
    rewrite startswith_char in H1.
    change ((c :: host) ++ [":"] ++ tail) with (c :: (host ++ [":"] ++ tail)).
    rewrite contains_cons, startswith_cons, H1. apply (IH H2).
Qed.

Lemma strip_scheme_address_uri (scheme : option str) (host p tail : str) :
  contains scheme_sep (host ++ colon ++ p ++ tail) = false ->
  strip_scheme (address_uri scheme host p tail) = host ++ colon ++ p ++ tail.
Proof.
  intros H. destruct scheme as [sc|]; unfold address_uri.
  - now apply strip_scheme_last.
  - unfold strip_scheme. now rewrite H.
Qed.

(** The parse of a URI whose cleaned form is [host:p]. *)
Lemma parse_clean_two (uri host p : str) :
  clean uri = host ++ colon ++ p ->
  contains colon host = false -> contains colon p = false ->
  resolve uri
  = match int_of_str p with
    | Some n => (Return {| ip := host; port := n |}, [])
    | None =>
        (Return default_address, [Log ERROR (ParseFailed uri (ValueError p))])
    end.
Proof.
  intros Hc Hh Hp. unfold resolve, parse_address, try_except.
  rewrite (parse_body_two uri host p).
  - now destruct (int_of_str p).
  - rewrite Hc. apply (contains_app colon host p).
  - rewrite Hc, colon_eq.
    change (host ++ [":"] ++ p) with (host ++ ":" :: p).
    rewrite split_char_app.
    rewrite (split_without_sep [":"] host) by exact Hh.
    rewrite (split_without_sep [":"] p) by exact Hp.
    reflexivity.
Qed.

(** X1: a URI without any colon is taken as a host alone: the host is
    the URI without its trailing slashes, the port is the default
    23817, and nothing is logged. *)
Theorem parse_host_only (uri : str) :
  contains colon uri = false ->
  resolve uri = (Return {| ip := rstrip "/" uri; port := 23817 |}, []).
Proof.
  intros H. unfold resolve, parse_address, try_except, parse_body, clean.
  assert (E : strip_scheme uri = uri).
  { unfold strip_scheme. now rewrite (no_colon_no_scheme uri H). }
  rewrite E, (rstrip_keeps_no_colon uri H). reflexivity.
Qed.

Lemma parse_host_only_witness :
  resolve (lit "infinity/")
  = (Return {| ip := rstrip "/" (lit "infinity/"); port := 23817 |}, []).
Proof.
  apply (parse_host_only (lit "infinity/")). reflexivity.
Defined.

Lemma strip_signed_digits (sign : ascii) (d : str) :
  int_space sign = false -> d <> [] -> forallb isdigit d = true ->
  strip (sign :: d) = sign :: d.
Proof.
  intros Hs Hne Hd. unfold strip.
  assert (E1 : lstrip_space (sign :: d) = sign :: d)
    by (simpl; now rewrite Hs).
  rewrite E1. change (rev (sign :: d)) with (rev d ++ [sign]).
  rewrite lstrip_space_digit.
  - rewrite rev_app_distr, rev_involutive. reflexivity.
  - destruct (rev d) as [|c r] eqn:E.
    + apply (f_equal (@rev ascii)) in E. rewrite rev_involutive in E.
      now subst d.
    + simpl. rewrite forallb_forall in Hd. apply Hd, in_rev.
      rewrite E. now left.
Qed.

Lemma int_of_negative (d : str) :
  d <> [] -> forallb isdigit d = true ->
  (List.length d <= int_max_str_digits)%nat ->
  int_of_str ("-" :: d) = Some (- decimal d).
Proof.
  intros Hne Hd Hlen. unfold int_of_str.
  rewrite (strip_signed_digits "-" d eq_refl Hne Hd).
  change (Ascii.eqb "-" "-") with true. cbv iota.
  now rewrite (int_literal_digits d Hne Hd Hlen).
Qed.

(** X2: the port is not range-checked: for a colon-free host and a
    non-empty string [d] of at most 4300 digits, the URI [host:-d],
    with or without scheme and trailing slashes, parses without any log
    record to that host and the negative port [-d]. *)
Theorem parse_negative_port (scheme : option str) (host d slashes : str) :
  contains colon host = false ->
  d <> [] -> forallb isdigit d = true ->
  (List.length d <= int_max_str_digits)%nat ->
  forallb (Ascii.eqb "/") slashes = true ->
  resolve (address_uri scheme host ("-" :: d) slashes)
  = (Return {| ip := host; port := - decimal d |}, []).
Proof.
  intros Hh Hne Hd Hlen Hs.
  assert (Hp : contains colon ("-" :: d) = false).
  { rewrite colon_eq, contains_cons, startswith_char.
    rewrite <- colon_eq. now apply digits_no_colon. }
  rewrite (parse_clean_two _ host ("-" :: d)); try assumption.
  - now rewrite (int_of_negative d Hne Hd Hlen).
  - unfold clean. rewrite strip_scheme_address_uri.
    + rewrite colon_eq.
      change (host ++ [":"] ++ ("-" :: d) ++ slashes)
        with (host ++ ":" :: (("-" :: d) ++ slashes)).
      rewrite (rstrip_stops "/" host ":" _ eq_refl).
      rewrite rstrip_app_all by exact Hs.
      rewrite rstrip_none; [reflexivity | discriminate |].
      rewrite forallb_forall in Hd |- *. intros c [<- | Hc]; [reflexivity|].
      now destruct (isdigit_plain c (Hd c Hc)) as (_ & _ & _ & -> & _).
    + apply host_tail_no_scheme; [exact Hh | | reflexivity].
      apply (contains_colon_app ("-" :: d) slashes Hp).
      now apply slashes_no_colon.
Qed.

Lemma parse_negative_port_witness :
  resolve (lit "http://infinity:-5/")
  = (Return {| ip := lit "infinity"; port := - decimal (lit "5") |}, []).
Proof.
  apply (parse_negative_port (Some (lit "http")) (lit "infinity")
           (lit "5") (lit "/"));
    [reflexivity | discriminate | reflexivity
    | apply Nat.leb_le; reflexivity | reflexivity].
Defined.

(** X3: a URI that ends in a colon, [host:] with an empty port, is not
    parsed as that host with the default port: [int("")] raises, the
    host is dropped, and the address is the default 127.0.0.1:23817
    with one error record. *)
Theorem parse_empty_port (scheme : option str) (host : str) :
  contains colon host = false ->
  resolve (address_uri scheme host [] [])
  = (Return default_address,
     [Log ERROR (ParseFailed (address_uri scheme host [] [])
                   (ValueError []))]).
Proof.
  intros Hh.
  rewrite (parse_clean_two _ host []); [reflexivity | | exact Hh | reflexivity].
  unfold clean. rewrite strip_scheme_address_uri.
  - rewrite colon_eq. change (host ++ [":"] ++ [] ++ []) with (host ++ ":" :: []).
    now rewrite (rstrip_stops "/" host ":" [] eq_refl).
  - now apply host_tail_no_scheme.
Qed.

Lemma parse_empty_port_witness :
  resolve (address_uri None (lit "infinity") [] [])
  = (Return default_address,
     [Log ERROR (ParseFailed (address_uri None (lit "infinity") [] [])
                   (ValueError []))]).
Proof.
  apply (parse_empty_port None (lit "infinity")). reflexivity.
Defined.

Lemma lstrip_space_keeps (c : ascii) (s : str) :
  int_space c = false -> In c s -> In c (lstrip_space s).
Proof.
  intros Hc. induction s as [|b s IH]; intros H; [easy|].
  simpl. destruct (int_space b) eqn:Eb.
  - destruct H as [-> | H]; [congruence | now apply IH].
  - exact H.
Qed.

Lemma strip_keeps (c : ascii) (s : str) :
  int_space c = false -> In c s -> In c (strip s).
Proof.
  intros Hc H. unfold strip.
  apply -> in_rev. apply lstrip_space_keeps; [exact Hc|].
  apply -> in_rev. now apply lstrip_space_keeps.
Qed.

Lemma int_digits_slash (s : str) (acc : Z) (seen : bool) :
  In "/" s -> int_digits acc seen s = None.
Proof.
  revert acc seen. induction s as [|c s IH]; intros acc seen H; [easy|].
  destruct H as [-> | H].
  - reflexivity.
  - simpl. destruct (isdigit c); [now apply IH|].
    destruct (Ascii.eqb c "_" && seen); [now apply IH | reflexivity].
Qed.

Lemma int_literal_slash (d : str) : In "/" d -> int_literal d = None.
Proof.
  intros H. unfold int_literal.
  destruct (int_max_str_digits <? count_digits d)%nat; [reflexivity|].
  now apply int_digits_slash.
Qed.

(** [int] rejects every literal that holds a slash. *)
Lemma int_of_str_slash (s : str) : In "/" s -> int_of_str s = None.
Proof.
  intros H. apply (strip_keeps "/" s eq_refl) in H.
  unfold int_of_str. destruct (strip s) as [|c d]; [reflexivity|].
  destruct (Ascii.eqb_spec c "-") as [-> | Hm].
  - destruct H as [H | H]; [discriminate H|].
    now rewrite int_literal_slash.
  - destruct (Ascii.eqb_spec c "+") as [-> | Hp].
    + destruct H as [H | H]; [discriminate H|].
      now rewrite int_literal_slash.
    + now apply int_literal_slash.
Qed.

(** X4: a path after the port defeats the parse: for a URI
    [host:port/path], with or without scheme, whose path is not empty,
    has no colon and does not end in a slash, the port segment is
    ["port/path"], [int] raises, and the address is the default
    127.0.0.1:23817 with one error record; host and port are lost. *)
Theorem parse_path_after_port (scheme : option str) (host port path : str) :
  contains colon host = false ->
  port <> [] -> forallb isdigit port = true ->
  path <> [] -> contains colon path = false -> rstrip "/" path = path ->
  resolve (address_uri scheme host port ("/" :: path))
  = (Return default_address,
     [Log ERROR (ParseFailed (address_uri scheme host port ("/" :: path))
                   (ValueError (port ++ "/" :: path)))]).
Proof.
  intros Hh Hne Hd Hpne Hpc Hpr.
  assert (Htail : contains colon (port ++ "/" :: path) = false).
  { apply contains_colon_app; [now apply digits_no_colon|].
    now rewrite colon_eq, contains_cons, startswith_char, <- colon_eq. }
  rewrite (parse_clean_two _ host (port ++ "/" :: path)); try assumption.
  - rewrite int_of_str_slash; [reflexivity|].
    apply in_or_app. right. now left.
  - unfold clean. rewrite strip_scheme_address_uri.
    + rewrite colon_eq.
      change (host ++ [":"] ++ port ++ "/" :: path)
        with (host ++ ":" :: (port ++ "/" :: path)).
      rewrite (rstrip_stops "/" host ":" _ eq_refl).
      replace (port ++ "/" :: path) with ((port ++ ["/"]) ++ path)
        by (now rewrite <- app_assoc).
      rewrite rstrip_app_keep; rewrite Hpr; [reflexivity | exact Hpne].
    + apply host_tail_no_scheme; [exact Hh | exact Htail |].
      destruct port as [|c port]; [easy|].
      apply forallb_cons_true in Hd. destruct Hd as [Hc _].
      change ((c :: port) ++ "/" :: path) with (c :: (port ++ "/" :: path)).
      rewrite startswith_char.
      now destruct (isdigit_plain c Hc) as (_ & _ & _ & _ & _ & ->).
Qed.

Lemma parse_path_after_port_witness :
  resolve (lit "http://infinity:23817/db")
  = (Return default_address,
     [Log ERROR (ParseFailed (lit "http://infinity:23817/db")
                   (ValueError (lit "23817" ++ "/" :: lit "db")))]).
Proof.
  apply (parse_path_after_port (Some (lit "http")) (lit "infinity")
           (lit "23817") (lit "db"));
    [reflexivity | discriminate | reflexivity | discriminate
    | reflexivity | reflexivity].
Defined.

(** X5: whatever the URI, parsing returns an address and logs one of
    four things: nothing, the format warning, one error, or the format
    warning followed by one error; and whenever it logs the error the
    address is the default 127.0.0.1:23817. *)
Theorem parse_log_shape (uri : str) :
  (exists a,
     resolve uri = (Return a, []) \/
     resolve uri = (Return a, [Log WARNING (UnexpectedFormat uri)])) \/
  (exists e,
     resolve uri = (Return default_address, [Log ERROR (ParseFailed uri e)]) \/
     resolve uri
     = (Return default_address,
        [Log WARNING (UnexpectedFormat uri); Log ERROR (ParseFailed uri e)])).
Proof.
  unfold resolve, parse_address, try_except, parse_body.
  destruct (contains colon (clean uri)).
  - assert (Hmany : forall parts : list str,
      let body : P NetworkAddress :=
        bind (emit (Log WARNING (UnexpectedFormat uri)))
          (fun _ => bind (index_m1 parts)
             (fun last_part => bind (py_int last_part)
                (fun port => bind (index_m2 parts)
                   (fun host => ret {| ip := host; port := port |})))) in
      (exists a, body [] = (Return a, [Log WARNING (UnexpectedFormat uri)])) \/
      (exists e, body [] = (Raise e, [Log WARNING (UnexpectedFormat uri)]))).
    { intros parts. unfold bind, emit, modify, index_m1, index_m2, py_int,
        ret, raise. cbv beta iota. simpl app.
      destruct (rev parts) as [|x [|y r]]; cbv beta iota;
        try (right; eexists; reflexivity);
        destruct (int_of_str x);
        try (right; eexists; reflexivity);
        left; eexists; reflexivity. }
    destruct (split colon (clean uri)) as [|a [|b [|c l]]] eqn:E.
    + destruct (Hmany []) as [(a & ->) | (e & ->)];
        [left; exists a; now right | right; exists e; now right].
    + destruct (Hmany [a]) as [(a' & ->) | (e & ->)];
        [left; exists a'; now right | right; exists e; now right].
    + unfold bind, py_int, ret, raise. destruct (int_of_str b).
      * left. eexists. left. reflexivity.
      * right. eexists. left. reflexivity.
    + destruct (Hmany (a :: b :: c :: l)) as [(a' & ->) | (e & ->)];
        [left; exists a'; now right | right; exists e; now right].
  - left. eexists. left. reflexivity.
Qed.

End ParseExtras.

(** ** The manager: construction, refresh and teardown *)

Module ManagerExtras.
Import InfinityConnectionPool ManagerFacts.

Section WithLibrary.
Variable L : Library.

Let state := state L.

Ltac unfold_all :=
  unfold refresh_conn_pool, __del__, round, round_body, try_except, probe,
    rebuild, get_conn, destroy, show_current_node, release_conn, sleep,
    ConnectionPool, get_conn_pool, get_conn_pool_attr, get_infinity_uri,
    hasattr_conn_pool, set_conn_pool, fresh, emit, call, bind, gets, modify,
    ret, raise;
  cbn [world trace next_obj self_infinity_uri self_conn_pool truthy].

Ltac lib_split :=
  match goal with
  | |- context [lib_pool_init L ?a ?n ?h ?w] =>
      destruct (lib_pool_init L a n h w) as [[[]|?] ?] eqn:?
  | |- context [lib_get_conn L ?h ?w] =>
      destruct (lib_get_conn L h w) as [[?|?] ?] eqn:?
  | |- context [lib_show_current_node L ?c ?w] =>
      destruct (lib_show_current_node L c w) as [[?|?] ?] eqn:?
  | |- context [lib_release_conn L ?h ?c ?w] =>
      destruct (lib_release_conn L h c w) as [[[]|?] ?] eqn:?
  | |- context [lib_destroy L ?h ?w] =>
      destruct (lib_destroy L h w) as [[[]|?] ?] eqn:?
  | |- context [healthy ?r] => destruct (healthy r) eqn:?
  end;
  cbn [world trace next_obj self_infinity_uri self_conn_pool truthy fst snd].

(** What one round records. *)
Lemma round_events (uri : str) (s : state) (addr : NetworkAddress) :
  self_infinity_uri s = Some addr ->
  exists b s' evs,
    round uri s = (Return b, s') /\
    trace s' = trace s ++ evs /\
    self_infinity_uri s' = Some addr /\
    (count is_pool_new evs <= 1)%nat /\
    (count is_sleep evs <= 1)%nat /\
    Forall (construction_event addr) evs.
Proof.
  intros Ha. unfold_all. rewrite Ha.
  cbn [world trace next_obj self_infinity_uri self_conn_pool].
  repeat lib_split;
    eexists; eexists; eexists;
    (split; [reflexivity|]);
    cbn [world trace next_obj self_infinity_uri self_conn_pool];
    (split; [rewrite <- ?app_assoc; reflexivity|]);
    (split; [exact Ha|]);
    (split; [unfold count; cbn; lia|]);
    (split; [unfold count; cbn; lia|]);
    repeat constructor.
Qed.

Lemma count_app (p : event -> bool) (a b : list event) :
  count p (a ++ b) = (count p a + count p b)%nat.
Proof. unfold count. now rewrite filter_app, length_app. Qed.

(** What the loop records in [n] rounds. *)
Lemma retry_events (n : nat) (uri : str) (s : state) (addr : NetworkAddress) :
  self_infinity_uri s = Some addr ->
  exists s' evs,
    retry n uri s = (Return tt, s') /\
    trace s' = trace s ++ evs /\
    self_infinity_uri s' = Some addr /\
    (count is_pool_new evs <= n)%nat /\
    (count is_sleep evs <= n)%nat /\
    Forall (construction_event addr) evs.
Proof.
  revert s. induction n as [|n IH]; intros s Ha.
  - exists s, []. rewrite app_nil_r. repeat split; auto.
  - destruct (round_events uri s addr Ha)
      as (b & s1 & e1 & E1 & T1 & A1 & P1 & S1 & F1).
    cbn [retry]. unfold bind at 1. rewrite E1. destruct b.
    + exists s1, e1. repeat split; auto; lia.
    + destruct (IH s1 A1) as (s2 & e2 & E2 & T2 & A2 & P2 & S2 & F2).
      exists s2, (e1 ++ e2). rewrite !count_app.
      repeat split; auto; try lia.
      * now rewrite T2, T1, app_assoc.
      * apply Forall_app. now split.
Qed.

Lemma construction_sleep_seconds (addr : NetworkAddress) (evs : list event) :
  Forall (construction_event addr) evs ->
  seconds_slept evs = (5 * count is_sleep evs)%nat.
Proof.
  induction 1 as [|e evs He _ IH]; [reflexivity|].
  change (seconds_slept (e :: evs))
    with (match e with
          | Sleep n => (n + seconds_slept evs)%nat
          | _ => seconds_slept evs
          end).
  rewrite IH. unfold count.
  destruct e; cbn [filter is_sleep List.length]; cbn in He; lia.
Qed.

(** The two ways a construction ends, with what it recorded. *)
Lemma init_outcome (uri : str) (w : World L) :
  exists addr logs s2 evs,
    Parse.resolve uri = (Return addr, logs) /\
    trace s2 = logs ++ evs /\
    self_infinity_uri s2 = Some addr /\
    (count is_pool_new evs <= 24)%nat /\
    (count is_sleep evs <= 24)%nat /\
    Forall (construction_event addr) evs /\
    ((self_conn_pool s2 = None /\
      __init__ uri (new_object L w)
      = (Raise (AttributeError "InfinityConnectionPool" "conn_pool"), s2)) \/
     (exists h,
        self_conn_pool s2 = Some (VPool h) /\
        __init__ uri (new_object L w)
        = (Return tt, advance s2 (world s2) [Log INFO (IsHealthy uri)]))).
Proof.
  destruct (AddressClaims.parse_address_returns uri []) as (a & t & Ep).
  destruct (retry_events 24 uri (parsed (new_object L w) t a) a eq_refl)
    as (s2 & evs & E2 & T2 & A2 & P2 & S2 & F2).
  destruct (retry_extends L 24 uri (parsed (new_object L w) t a))
    as (s2' & E2' & X2).
  rewrite E2 in E2'. injection E2' as <-.
  exists a, t, s2, evs. unfold Parse.resolve.
  repeat split; auto.
  rewrite (init_steps L uri (new_object L w) a t Ep), E2.
  destruct X2 as [_ _ _ _ [Hp | (h & Hp)]].
  - cbn [self_conn_pool parsed new_object] in Hp. left. split; [exact Hp|].
    now apply check_healthy_absent.
  - right. exists h. split; [exact Hp|].
    unfold check_healthy, get_conn_pool_attr, bind, gets, emit, modify.
    now rewrite Hp.
Qed.

(** The two ways a construction ends. *)
Lemma construction_outcome_cases (uri : str) (w : World L) :
  (fst (__init__ uri (new_object L w)) = Return tt /\
   exists h,
     self_conn_pool (snd (__init__ uri (new_object L w))) = Some (VPool h)) \/
  (fst (__init__ uri (new_object L w))
   = Raise (AttributeError "InfinityConnectionPool" "conn_pool") /\
   self_conn_pool (snd (__init__ uri (new_object L w))) = None).
Proof.
  destruct (init_outcome uri w)
    as (a & t & s2 & evs & Er & _ & _ & _ & _ & _ & [[P E] | (h & P & E)]);
    rewrite E; cbn [snd fst self_conn_pool advance].
  - right. now split.
  - left. split; [reflexivity | now exists h].
Qed.

(** X6: whatever the library does and whatever the URI is, the
    construction builds at most 24 pools and sleeps at most 120 seconds
    in all, counted from the end of the address parsing. *)
Theorem construction_bounded (uri : str) (w : World L) :
  exists evs,
    trace (snd (__init__ uri (new_object L w)))
    = snd (Parse.resolve uri) ++ evs /\
    (count is_pool_new evs <= 24)%nat /\
    (seconds_slept evs <= 120)%nat.
Proof.
  destruct (init_outcome uri w)
    as (a & t & s2 & evs & Er & T2 & _ & P2 & S2 & F2 & [[_ E] | (h & _ & E)]);
    rewrite E, Er; cbn [snd fst trace advance].
  - exists evs. rewrite (construction_sleep_seconds a evs F2).
    repeat split; [exact T2 | exact P2 | lia].
  - exists (evs ++ [Log INFO (IsHealthy uri)]).
    assert (F : Forall (construction_event a)
                  (evs ++ [Log INFO (IsHealthy uri)]))
      by (apply Forall_app; split; [exact F2 | repeat constructor]).
    rewrite (construction_sleep_seconds a _ F), !count_app.
    repeat split.
    + now rewrite T2, app_assoc.
    + cbn. lia.
    + cbn. lia.
Qed.

(** X7: every pool the construction builds is built at the address the
    parse resolved, with [max_size=4]; every sleep lasts five seconds;
    and from the end of the parsing on the construction destroys no
    pool, not even those of failed rounds, and logs no error record. *)
Theorem construction_events (uri : str) (w : World L) :
  exists addr evs,
    fst (Parse.resolve uri) = Return addr /\
    trace (snd (__init__ uri (new_object L w)))
    = snd (Parse.resolve uri) ++ evs /\
    Forall (construction_event addr) evs.
Proof.
  destruct (init_outcome uri w)
    as (a & t & s2 & evs & Er & T2 & _ & _ & _ & F2 & [[_ E] | (h & _ & E)]);
    rewrite E, Er; cbn [snd fst trace advance]; exists a.
  - exists evs. now repeat split.
  - exists (evs ++ [Log INFO (IsHealthy uri)]). repeat split.
    + now rewrite T2, app_assoc.
    + apply Forall_app. split; [exact F2 | repeat constructor].
Qed.

(** X8: a construction ends in one of two ways, whatever the library
    does: it returns, and then a pool and the resolved address are
    stored; or it raises [AttributeError] on the unset [conn_pool], and
    then nothing is stored. It never raises the "unhealthy" exception
    of line 86. *)
Theorem construction_outcome (uri : str) (w : World L) :
  (fst (__init__ uri (new_object L w)) = Return tt /\
   (exists h,
      self_conn_pool (snd (__init__ uri (new_object L w))) = Some (VPool h)) /\
   (exists addr,
      fst (Parse.resolve uri) = Return addr /\
      self_infinity_uri (snd (__init__ uri (new_object L w))) = Some addr)) \/
  (fst (__init__ uri (new_object L w))
   = Raise (AttributeError "InfinityConnectionPool" "conn_pool") /\
   self_conn_pool (snd (__init__ uri (new_object L w))) = None).
Proof.
  destruct (init_outcome uri w)
    as (a & t & s2 & evs & Er & _ & A2 & _ & _ & _ & [[P E] | (h & P & E)]);
    rewrite E, Er; cbn [snd fst self_conn_pool self_infinity_uri advance].
  - right. now split.
  - left. repeat split; [now exists h | now exists a].
Qed.

Lemma retry_succ (n : nat) (uri : str) (s : state) :
  retry (S n) uri s
  = match round uri s with
    | (Return true, s') => (Return tt, s')
    | (Return false, s') => retry n uri s'
    | (Raise e, s') => (Raise e, s')
    end.
Proof.
  cbn [retry]. unfold bind at 1.
  now destruct (round uri s) as [[[]|e] s'].
Qed.

(** X9: when the first round finds the server healthy and the
    connection is given back, the construction is over after that one
    round: one pool was built at the resolved address with
    [max_size=4], it is stored, the connection was released, nothing
    slept, and the last record says the server is healthy. *)
Theorem construction_first_round (uri : str) (w : World L)
    (addr : NetworkAddress) (logs : list event)
    (w1 : World L) (c : conn) (w2 : World L) (res : Z * str)
    (w3 w4 : World L) :
  Parse.resolve uri = (Return addr, logs) ->
  lib_pool_init L addr 4 0%nat w = (Return tt, w1) ->
  lib_get_conn L 0%nat w1 = (Return c, w2) ->
  lib_show_current_node L c w2 = (Return res, w3) ->
  healthy res = true ->
  lib_release_conn L 0%nat c w3 = (Return tt, w4) ->
  __init__ uri (new_object L w)
  = (Return tt,
     {| world := w4;
        trace := logs ++ [PoolNew addr 4 0%nat; GetConn 0%nat; ShowCurrentNode c;
                          ReleaseConn 0%nat c; Log INFO (IsHealthy uri)];
        next_obj := 1%nat;
        self_infinity_uri := Some addr;
        self_conn_pool := Some (VPool 0%nat) |}).
Proof.
  intros Er Hn Hg Hs Hh Hr. unfold Parse.resolve in Er.
  rewrite (init_steps L uri (new_object L w) addr logs Er).
  change 24%nat with (S 23). rewrite retry_succ.
  unfold_all. cbn [parsed new_object world trace next_obj self_infinity_uri
                   self_conn_pool].
  rewrite Hn; cbn. rewrite Hg; cbn. rewrite Hs; cbn. rewrite Hh; cbn.
  rewrite Hr; cbn.
  unfold check_healthy, get_conn_pool_attr, bind, gets, emit, modify. cbn.
  now rewrite <- !app_assoc.
Qed.

(** X10: when the probe of a round is healthy but giving the
    connection back raises, the pool of that round is already stored
    and stays stored, yet the round counts as failed: the warning is
    logged, five seconds are slept, and the loop goes on to build
    another pool. *)
Theorem round_release_raises (uri : str) (s : state) (addr : NetworkAddress)
    (w1 : World L) (c : conn) (w2 : World L) (res : Z * str)
    (w3 : World L) (e : exn) (w4 : World L) :
  self_infinity_uri s = Some addr ->
  lib_pool_init L addr 4 (next_obj s) (world s) = (Return tt, w1) ->
  lib_get_conn L (next_obj s) w1 = (Return c, w2) ->
  lib_show_current_node L c w2 = (Return res, w3) ->
  healthy res = true ->
  lib_release_conn L (next_obj s) c w3 = (Raise e, w4) ->
  round uri s
  = (Return false,
     {| world := w4;
        trace := trace s ++
                 [PoolNew addr 4 (next_obj s); GetConn (next_obj s);
                  ShowCurrentNode c; ReleaseConn (next_obj s) c;
                  Log WARNING (Waiting e uri); Sleep 5];
        next_obj := S (next_obj s);
        self_infinity_uri := Some addr;
        self_conn_pool := Some (VPool (next_obj s)) |}).
Proof.
  intros Ha Hn Hg Hs Hh Hr. unfold_all.
  rewrite Ha; cbn. rewrite Hn; cbn. rewrite Hg; cbn. rewrite Hs; cbn.
  rewrite Hh; cbn. rewrite Hr; cbn. rewrite Ha.
  now rewrite <- !app_assoc.
Qed.

(** X11: once the construction has returned, [get_conn_pool] returns a
    pool handle, never [None] and never an exception, and changes
    nothing. *)
Theorem get_conn_pool_after_init (uri : str) (w : World L) (s' : state) :
  __init__ uri (new_object L w) = (Return tt, s') ->
  exists h, get_conn_pool s' = (Return (VPool h), s').
Proof.
  intros H. destruct (init_establishes L uri w s' H) as (_ & (h & Hp) & _).
  exists h. unfold get_conn_pool, get_conn_pool_attr, bind, gets.
  now rewrite Hp.
Qed.

(** X12: with a pool stored, [refresh_conn_pool] never returns [None]:
    whatever the library does, what it returns is a pool and is the
    pool stored afterwards; and a pool is stored afterwards even when
    the call raises. *)
Theorem refresh_keeps_a_pool (s : state) (h : handle) :
  self_conn_pool s = Some (VPool h) ->
  (exists h', self_conn_pool (snd (refresh_conn_pool s)) = Some (VPool h')) /\
  (forall v, fst (refresh_conn_pool s) = Return v ->
     v <> VNone /\ self_conn_pool (snd (refresh_conn_pool s)) = Some v).
Proof.
  intros P. unfold_all. rewrite P.
  cbn [world trace next_obj self_infinity_uri self_conn_pool truthy fst snd].
  destruct (self_infinity_uri s) as [addr|] eqn:A;
    repeat (lib_split; rewrite ?P;
            cbn [world trace next_obj self_infinity_uri self_conn_pool
                 truthy fst snd]);
    (split; [eexists; reflexivity|]);
    intros v Hv; try discriminate Hv;
    injection Hv as <-; (split; [discriminate | reflexivity]).
Qed.

(** X13: if, after a failed or raising probe, [destroy] on the prior
    pool raises, that exception leaves [refresh_conn_pool]: no
    replacement is built and the prior pool stays stored. *)
Theorem refresh_destroy_raises (s : state) (h : handle)
    e w1 evs e' w2 :
  self_conn_pool s = Some (VPool h) ->
  probe_fails s h e w1 evs ->
  lib_destroy L h w1 = (Raise e', w2) ->
  refresh_conn_pool s
  = (Raise e', advance s w2 (evs ++ [Log ERROR (Str e); Destroy h])) /\
  count is_pool_new (evs ++ [Log ERROR (Str e); Destroy h]) = 0%nat.
Proof.
  intros Hp Hf Hd. split.
  - unfold refresh_conn_pool, try_except.
    rewrite (probe_fails_run L s h e w1 evs Hp Hf).
    unfold_all. unfold advance; cbn. rewrite Hp; cbn. rewrite Hd; cbn.
    now rewrite <- !app_assoc.
  - destruct Hf; reflexivity.
Qed.

(** X14: [refresh_conn_pool] never gives the connection it borrowed
    back to the pool, whatever the outcome; it never sleeps, builds at
    most one pool and destroys at most one. *)
Theorem refresh_never_releases (s : state) :
  exists evs,
    trace (snd (refresh_conn_pool s)) = trace s ++ evs /\
    count is_release evs = 0%nat /\
    count is_sleep evs = 0%nat /\
    (count is_pool_new evs <= 1)%nat /\
    (count is_any_destroy evs <= 1)%nat.
Proof.
  unfold_all.
  destruct (self_conn_pool s) as [[|h]|] eqn:P;
    destruct (self_infinity_uri s) as [addr|] eqn:A;
    repeat first
      [ progress cbn [world trace next_obj self_infinity_uri self_conn_pool
                      truthy fst snd]
      | rewrite P | rewrite A | lib_split ];
    eexists; (split; [rewrite <- ?app_assoc; reflexivity|]);
    unfold count; cbn; repeat split; lia.
Qed.

(** X15: with a pool stored, [__del__] calls [destroy] on it exactly
    once, ends as that call ends (an exception of [destroy] leaves
    [__del__]), and leaves the handle stored. *)
Theorem del_destroys_stored (s : state) (h : handle)
    (r : outcome unit) (w' : World L) :
  self_conn_pool s = Some (VPool h) ->
  lib_destroy L h (world s) = (r, w') ->
  __del__ s = (r, advance s w' [Destroy h]) /\
  self_conn_pool (snd (__del__ s)) = Some (VPool h).
Proof.
  intros Hp Hd.
  assert (E : __del__ s = (r, advance s w' [Destroy h])).
  { unfold_all. rewrite Hp.
    cbn [world trace next_obj self_infinity_uri self_conn_pool truthy].
    rewrite Hp.
    cbn [world trace next_obj self_infinity_uri self_conn_pool truthy].
    rewrite Hd. unfold advance. rewrite Hp. now destruct r as [[]|]. }
  rewrite E. split; [reflexivity | exact Hp].
Qed.

(** X16: after a construction that raised, [__del__] does nothing: it
    returns without an exception and destroys none of the pools the
    failed rounds built. *)
Theorem del_after_failed_construction (uri : str) (w : World L) (e : exn) :
  fst (__init__ uri (new_object L w)) = Raise e ->
  __del__ (snd (__init__ uri (new_object L w)))
  = (Return tt, snd (__init__ uri (new_object L w))).
Proof.
  intros H.
  destruct (construction_outcome_cases uri w) as [[E _] | [_ P]].
  - rewrite E in H. discriminate H.
  - unfold_all. now rewrite P.
Qed.

(** X17: a rebuild followed by the teardown destroys each pool once:
    the prior pool in [refresh_conn_pool], the new one in [__del__]. *)
Theorem rebuild_then_del (s : state) (h : handle) (addr : NetworkAddress)
    e w1 evs w2 w3 w4 :
  self_conn_pool s = Some (VPool h) ->
  self_infinity_uri s = Some addr ->
  (h < next_obj s)%nat ->
  probe_fails s h e w1 evs ->
  lib_destroy L h w1 = (Return tt, w2) ->
  lib_pool_init L addr 32 (next_obj s) w2 = (Return tt, w3) ->
  lib_destroy L (next_obj s) w3 = (Return tt, w4) ->
  exists s1 s2 evs',
    refresh_conn_pool s = (Return (VPool (next_obj s)), s1) /\
    __del__ s1 = (Return tt, s2) /\
    trace s2 = trace s ++ evs' /\
    count (is_destroy h) evs' = 1%nat /\
    count (is_destroy (next_obj s)) evs' = 1%nat /\
    count is_any_destroy evs' = 2%nat.
Proof.
  intros Hp Ha Hlt Hf Hd Hn Hd'.
  eexists. eexists.
  exists (evs ++ [Log ERROR (Str e); Destroy h;
                  PoolNew addr 32 (next_obj s); Destroy (next_obj s)]).
  unfold refresh_conn_pool, try_except.
  rewrite (probe_fails_run L s h e w1 evs Hp Hf).
  unfold_all. unfold advance; cbn. rewrite Hp; cbn. rewrite Hd; cbn.
  rewrite Ha; cbn. rewrite Hn; cbn.
  split; [reflexivity|]. cbn. rewrite Hd'.
  split; [reflexivity|]. cbn.
  assert (Hne : Nat.eqb h (next_obj s) = false)
    by (apply Nat.eqb_neq; lia).
  assert (Hne' : Nat.eqb (next_obj s) h = false)
    by (apply Nat.eqb_neq; lia).
  rewrite !count_app.
  repeat split.
  - now rewrite <- !app_assoc.
  - destruct Hf; unfold count; cbn; rewrite Nat.eqb_refl, Hne; reflexivity.
  - destruct Hf; unfold count; cbn; rewrite Nat.eqb_refl, Hne'; reflexivity.
  - destruct Hf; reflexivity.
Qed.

End WithLibrary.
End ManagerExtras.

(** ** Runs of the further properties *)

Module RunsExtras.
Import InfinityConnectionPool ManagerFacts ManagerExtras.
Import Scenario MoreScenarios.

Local Open Scope nat_scope.

Lemma construction_first_round_witness :
  __init__ configured_uri (new_object Scripted.library (Scripted.up [Scripted.ok]))
  = (Return tt,
     {| world := (Scripted.up [] : World Scripted.library);
        trace := [] ++ [PoolNew configured_address 4 0; GetConn 0;
                        ShowCurrentNode 0; ReleaseConn 0 0;
                        Log INFO (IsHealthy configured_uri)];
        next_obj := 1;
        self_infinity_uri := Some configured_address;
        self_conn_pool := Some (VPool 0) |}).
Proof.
  apply (construction_first_round Scripted.library configured_uri
           (Scripted.up [Scripted.ok]) configured_address []
           (Scripted.up [Scripted.ok]) 0 (Scripted.up [Scripted.ok])
           (ErrorCode_OK, lit "started") (Scripted.up []) (Scripted.up []));
    reflexivity.
Defined.

Lemma round_release_raises_witness :
  round configured_uri (before_loop Stubs.no_release tt)
  = (Return false,
     {| world := (tt : World Stubs.no_release);
        trace := trace (before_loop Stubs.no_release tt) ++
                 [PoolNew configured_address 4 0; GetConn 0;
                  ShowCurrentNode 0; ReleaseConn 0 0;
                  Log WARNING (Waiting (LibraryError "release failed")
                                 configured_uri);
                  Sleep 5];
        next_obj := 1;
        self_infinity_uri := Some configured_address;
        self_conn_pool := Some (VPool 0) |}).
Proof.
  apply (round_release_raises Stubs.no_release configured_uri
           (before_loop Stubs.no_release tt) configured_address
           tt 0 tt (ErrorCode_OK, lit "alive") tt
           (LibraryError "release failed") tt);
    reflexivity.
Defined.

(** Against that server every round stores its pool and fails: the
    construction returns after 24 rounds and 120 seconds with the last
    of the 24 pools stored. *)
Example construct_no_release :
  fst (__init__ configured_uri (new_object Stubs.no_release tt)) = Return tt /\
  self_conn_pool (snd (__init__ configured_uri (new_object Stubs.no_release tt)))
  = Some (VPool 23) /\
  count is_pool_new
    (trace (snd (__init__ configured_uri (new_object Stubs.no_release tt))))
  = 24 /\
  seconds_slept
    (trace (snd (__init__ configured_uri (new_object Stubs.no_release tt))))
  = 120.
Proof. vm_compute. repeat split. Qed.

Lemma get_conn_pool_after_init_witness :
  exists h, get_conn_pool (manager []) = (Return (VPool h), manager []).
Proof.
  apply (get_conn_pool_after_init Scripted.library configured_uri
           (Scripted.up [Scripted.ok]) (manager [])).
  vm_compute. reflexivity.
Defined.

Lemma refresh_keeps_a_pool_witness :
  (exists h',
     self_conn_pool (snd (refresh_conn_pool (server_away (manager []))))
     = Some (VPool h')) /\
  (forall v,
     fst (refresh_conn_pool (server_away (manager []))) = Return v ->
     v <> VNone /\
     self_conn_pool (snd (refresh_conn_pool (server_away (manager []))))
     = Some v).
Proof.
  apply (refresh_keeps_a_pool Scripted.library (server_away (manager [])) 0).
  reflexivity.
Defined.

Lemma refresh_destroy_raises_witness :
  refresh_conn_pool (destroy_refused (manager []))
  = (Raise (LibraryError "destroy failed"),
     @advance Scripted.library (destroy_refused (manager [])) no_teardown
       ([GetConn 0; ShowCurrentNode 0] ++
        [Log ERROR (Str (LibraryError "no answer")); Destroy 0])) /\
  count is_pool_new
    ([GetConn 0; ShowCurrentNode 0] ++
     [Log ERROR (Str (LibraryError "no answer")); Destroy 0]) = 0.
Proof.
  apply (refresh_destroy_raises Scripted.library (destroy_refused (manager []))
           0 (LibraryError "no answer") no_teardown
           [GetConn 0; ShowCurrentNode 0]
           (LibraryError "destroy failed") no_teardown).
  - reflexivity.
  - apply show_raises with (w1 := no_teardown); reflexivity.
  - reflexivity.
Defined.

Lemma del_destroys_stored_witness :
  __del__ (manager [])
  = (Return tt, @advance Scripted.library (manager []) (Scripted.up []) [Destroy 0]) /\
  self_conn_pool (snd (__del__ (manager []))) = Some (VPool 0).
Proof.
  apply (del_destroys_stored Scripted.library (manager []) 0 (Return tt)
           (Scripted.up []));
    reflexivity.
Defined.

Lemma del_after_failed_construction_witness :
  __del__ (snd (construct [])) = (Return tt, snd (construct [])).
Proof.
  apply (del_after_failed_construction Scripted.library configured_uri
           (Scripted.up [])
           (AttributeError "InfinityConnectionPool" "conn_pool")).
  reflexivity.
Defined.

Lemma rebuild_then_del_witness :
  exists s1 s2 evs',
    refresh_conn_pool (manager [])
    = (Return (VPool (next_obj (manager []))), s1) /\
    __del__ s1 = (Return tt, s2) /\
    trace s2 = trace (manager []) ++ evs' /\
    count (is_destroy 0) evs' = 1 /\
    count (is_destroy (next_obj (manager []))) evs' = 1 /\
    count is_any_destroy evs' = 2.
Proof.
  apply (rebuild_then_del Scripted.library (manager []) 0 configured_address
           (LibraryError "no answer") (Scripted.up [])
           [GetConn 0; ShowCurrentNode 0] (Scripted.up []) (Scripted.up [])
           (Scripted.up [])).
  - reflexivity.
  - reflexivity.
  - vm_compute. apply le_n.
  - apply show_raises with (w1 := Scripted.up []); reflexivity.
  - reflexivity.
  - reflexivity.
  - reflexivity.
Defined.

Lemma init_never_healthy_witness :
  exists s' evs,
    __init__ configured_uri (new_object Stubs.never_ready tt)
    = (Raise (AttributeError "InfinityConnectionPool" "conn_pool"), s') /\
    self_conn_pool s' = None /\
    trace s' = snd (Parse.resolve configured_uri) ++ evs /\
    count (is_log ERROR) evs = 0.
Proof.
  apply (init_never_healthy Stubs.never_ready configured_uri tt).
  intros c w res w' H. injection H as <- _. reflexivity.
Defined.

Lemma round_bad_status_silent_witness :
  exists s',
    round configured_uri (before_loop Stubs.never_ready tt)
    = (Return false, s') /\
    trace s' = trace (before_loop Stubs.never_ready tt) ++
               [PoolNew configured_address 4
                  (next_obj (before_loop Stubs.never_ready tt));
                GetConn (next_obj (before_loop Stubs.never_ready tt));
                ShowCurrentNode 0] /\
    self_conn_pool s' = self_conn_pool (before_loop Stubs.never_ready tt).
Proof.
  apply (round_bad_status_silent Stubs.never_ready configured_uri
           (before_loop Stubs.never_ready tt) configured_address
           tt 0 tt (ErrorCode_OK, lit "starting") tt);
    reflexivity.
Defined.

End RunsExtras.
